(** * hope-proto: a tagged, recursive value model and its wire encoding

    A shallow embedding of [lib/hope_proto/hope_proto.h] together with the one
    stream the repository instantiates it with, [test/mock_stream.h].

    Platform conventions of the model (the header copies object
    representations byte for byte, so they have to be fixed once):
    - bytes are [Byte.byte];
    - fixed-width integers are [Z] with their wrap-around written out, stored
      little-endian; [std::size_t] is 8 bytes wide;
    - a [double] is carried as its 64-bit object representation, which is
      all that [stream.write]/[stream.read] ever look at;
    - a [std::string] is the list of its bytes. *)

From Stdlib Require Import ZArith List Lia Bool Arith.
From Stdlib Require Import Strings.Byte.
Import ListNotations.

Local Open Scope Z_scope.

#[local] Set Warnings "-register-all".

(** ** Bytes and object representations *)

Definition std_string := list byte.

Definition byte_of_Z (z : Z) : byte :=
  match Byte.of_N (Z.to_N (z mod 256)) with
  | Some b => b
  | None => x00
  end.

Definition Z_of_byte (b : byte) : Z := Z.of_N (Byte.to_N b).

(** [sizeof(T)] bytes of an unsigned value, least significant byte first. *)
Fixpoint le_bytes (n : nat) (v : Z) : list byte :=
  match n with
  | O => []
  | S n' => byte_of_Z v :: le_bytes n' (v / 256)
  end.

Fixpoint le_value (bs : list byte) : Z :=
  match bs with
  | [] => 0
  | b :: bs' => Z_of_byte b + 256 * le_value bs'
  end.

(** Integer conversions of C++. *)
Definition uint16_cast (z : Z) : Z := z mod 2 ^ 16.
Definition uint32_cast (z : Z) : Z := z mod 2 ^ 32.
Definition size_t_cast (z : Z) : Z := z mod 2 ^ 64.
(** Two's complement: the unsigned reading of an [int32_t] and back. *)
Definition int32_bits (z : Z) : Z := z mod 2 ^ 32.
Definition int32_of_bits (u : Z) : Z := if u <? 2 ^ 31 then u else u - 2 ^ 32.

Definition vsize {A} (l : list A) : Z := Z.of_nat (length l).

(** ** Outcomes

    The header has no error values of its own.  What a call can do besides
    returning is listed in [fault]; [error] is the taxonomy of the
    specification (section 7), kept in the outcome type so that statements
    about it can be written down.  Three faults, [stream_exhausted],
    [out_of_bounds_read] and [unspecified_layout], do not say that the
    program stops: they mark a read of bytes the model has no value for (a
    short stream, memory behind the stored object, the inside of a library
    object), after which the model is silent. *)

Inductive error : Type :=
| TypeMismatch
| FieldNotFound
| UnknownTypeTag
| TruncatedStream
| UnsupportedElementType.

Inductive fault : Type :=
| bad_function_call      (* an empty std::function was invoked *)
| null_argument          (* assert(new_argument) on a null pointer *)
| null_dereference       (* a member access through nullptr *)
| stream_exhausted       (* the stringstream had fewer bytes than requested *)
| out_of_bounds_read     (* a reinterpreted read past the stored object *)
| unspecified_layout     (* a reinterpreted read of a library object *)
| builder_not_empty      (* assert(values.empty()) in ~struct_builder *)
| out_of_fuel.           (* artefact of the model's recursion bound *)

Inductive outcome (A : Type) : Type :=
| Ok (a : A)
| Error (e : error)
| Fault (f : fault).

Arguments Ok {A} a.
Arguments Error {A} e.
Arguments Fault {A} f.

(** ** mock_stream

    A [std::stringstream]: [write] appends at the put position, [read] takes
    from the get position.  The state is the sequence of bytes written and
    not yet read. *)

Definition mock_stream := list byte.

Definition M (A : Type) : Type := mock_stream -> outcome (A * mock_stream).

Definition ret {A} (a : A) : M A := fun s => Ok (a, s).

Definition bind {A B} (m : M A) (k : A -> M B) : M B :=
  fun s => match m s with
           | Ok (a, s') => k a s'
           | Error e => Error e
           | Fault f => Fault f
           end.

Definition raise {A} (f : fault) : M A := fun _ => Fault f.

Notation "x <- m ;; k" := (bind m (fun x => k))
  (at level 61, m at next level, right associativity).

Module stream.

(** [void write(const void* data, std::size_t length)] *)
Definition write (data : list byte) (s : mock_stream) : mock_stream :=
  s ++ data.

(** [size_t read(void* data, std::size_t length)], when the stream holds the
    [length] bytes asked for.  When it holds fewer, the stringstream hands
    over what is left and fails, [mock_stream::read] still returns [length],
    and the program goes on with a destination that is only partly filled
    (for a fresh local, with an indeterminate rest).  The model does not
    follow the program there: [Fault stream_exhausted] marks a short read
    and says nothing about what the program then returns.  Statements
    about the code are made on streams whose reads are all served in
    full. *)
Definition read (length : nat) : M (list byte) :=
  fun s => if (length <=? List.length s)%nat
           then Ok (firstn length s, skipn length s)
           else Fault stream_exhausted.

(** [write<TValue>(const TValue&)] for a trivial type of [n] bytes. *)
Definition write_trivial (n : nat) (v : Z) : mock_stream -> mock_stream :=
  write (le_bytes n v).

(** [read<TValue>()] for a trivial type of [n] bytes. *)
Definition read_trivial (n : nat) : M Z :=
  bs <- read n ;; ret (le_value bs).

(** [write<std::string>]: the size cast to [uint16_t], then every byte. *)
Definition write_string (val : std_string) (s : mock_stream) : mock_stream :=
  write val (write_trivial 2 (uint16_cast (vsize val)) s).

(** [read<std::string>(std::string& val)]: [val] is only touched when the
    size read is positive. *)
Definition read_string (val : std_string) : M std_string :=
  size <- read_trivial 2 ;;
  if 0 <? size then read (Z.to_nat size) else ret val.

(** [read<std::string>()]: a fresh string is read into. *)
Definition read_new_string : M std_string := read_string [].

End stream.

(** ** The tag enumeration *)

Module e_argument_type.

Inductive t : Type :=
| int32
| uint64
| float64
| string
| array
| struct_value
| file
| blob
| count.

(** The enumerator's value; the underlying type is [uint8_t]. *)
Definition ordinal (x : t) : Z :=
  match x with
  | int32 => 0
  | uint64 => 1
  | float64 => 2
  | string => 3
  | array => 4
  | struct_value => 5
  | file => 6
  | blob => 7
  | count => 8
  end.

Definition all : list t :=
  [int32; uint64; float64; string; array; struct_value; file; blob; count].

Definition eqb (x y : t) : bool := ordinal x =? ordinal y.

(** The byte of a tag on the wire, as [stream.write(argument_type)] puts
    it. *)
Definition to_byte (x : t) : byte := byte_of_Z (ordinal x).

(** A byte read back as a tag.  Every byte is a value of the enumeration
    type; only nine of them are enumerators. *)
Definition of_byte (b : byte) : option t :=
  find (fun x => ordinal x =? Z_of_byte b) all.

End e_argument_type.

Definition tag : Type := e_argument_type.t.

(** ** Arguments

    One constructor per concrete class the header can instantiate:
    [argument_generic] at its four aliases, [argument_blob],
    [argument_struct], and [array<TStream, TValue>] at the five element
    types its static assertion admits ([argument_struct<TStream>*] for the
    last one, an element being the struct's own name and children). *)

Inductive argument : Type :=
| int32 (name : std_string) (val : Z)
| uint64 (name : std_string) (val : Z)
| float64 (name : std_string) (val : Z)
| string (name : std_string) (val : std_string)
| argument_blob (name : std_string) (m_blob : list byte)
| argument_struct (name : std_string) (values : list argument)
| array_int32 (name : std_string) (val : list Z)
| array_uint64 (name : std_string) (val : list Z)
| array_float64 (name : std_string) (val : list Z)
| array_string (name : std_string) (val : list std_string)
| array_struct (name : std_string) (val : list (std_string * list argument)).

Definition get_name (a : argument) : std_string :=
  match a with
  | int32 n _ | uint64 n _ | float64 n _ | string n _
  | argument_blob n _ | argument_struct n _
  | array_int32 n _ | array_uint64 n _ | array_float64 n _
  | array_string n _ | array_struct n _ => n
  end.

(** [argument_type], as each constructor passes it to the base class. *)
Definition get_type (a : argument) : tag :=
  match a with
  | int32 _ _ => e_argument_type.int32
  | uint64 _ _ => e_argument_type.uint64
  | float64 _ _ => e_argument_type.float64
  | string _ _ => e_argument_type.string
  | argument_blob _ _ => e_argument_type.blob
  | argument_struct _ _ => e_argument_type.struct_value
  | array_int32 _ _ | array_uint64 _ _ | array_float64 _ _
  | array_string _ _ | array_struct _ _ => e_argument_type.array
  end.

Definition is_array (a : argument) : bool :=
  match a with
  | array_int32 _ _ | array_uint64 _ _ | array_float64 _ _
  | array_string _ _ | array_struct _ _ => true
  | _ => false
  end.

(** The types [array]'s parameter [TValue] is tested at: the four scalar
    types, [argument_struct<TStream>], and pointers. *)
Inductive element_type : Type :=
| elem_int32_t
| elem_uint64_t
| elem_double
| elem_std_string
| elem_argument_struct
| elem_pointer (T : element_type).

(** [argument_struct<TStream>*], the element type of the struct array the
    decoder allocates. *)
Definition elem_argument_struct_ptr : element_type :=
  elem_pointer elem_argument_struct.

Definition remove_pointer_t (T : element_type) : element_type :=
  match T with
  | elem_pointer T' => T'
  | _ => T
  end.

(** [std::is_base_of_v<argument<TStream>, T>]: true of a class derived from
    [argument], false of every other type, a pointer to such a class
    included. *)
Definition is_base_of_argument (T : element_type) : bool :=
  match T with
  | elem_argument_struct => true
  | _ => false
  end.

Definition is_same_v (T U : element_type) : bool :=
  match T, U with
  | elem_int32_t, elem_int32_t
  | elem_uint64_t, elem_uint64_t
  | elem_double, elem_double
  | elem_std_string, elem_std_string => true
  | _, _ => false
  end.

(** The condition of [array]'s [static_assert]. *)
Definition array_static_assert (TValue : element_type) : bool :=
  is_same_v elem_double TValue
  || is_same_v elem_int32_t TValue
  || is_same_v elem_uint64_t TValue
  || is_same_v elem_std_string TValue
  || is_base_of_argument (remove_pointer_t TValue).

(** [array::is_trivial] *)
Definition array_is_trivial (TValue : element_type) : bool :=
  negb (is_base_of_argument (remove_pointer_t TValue)).

(** [array::get_type()], a chain of [if constexpr] that returns at the first
    test that holds.  Unlike the two conditions above, its fourth test asks
    [std::is_base_of_v] about [TValue] itself. *)
Definition array_get_type (TValue : element_type) : tag :=
  if is_same_v TValue elem_int32_t then e_argument_type.int32
  else if is_same_v TValue elem_uint64_t then e_argument_type.uint64
  else if is_same_v TValue elem_std_string then e_argument_type.string
  else if is_base_of_argument TValue then e_argument_type.struct_value
  else if is_same_v TValue elem_double then e_argument_type.float64
  else e_argument_type.count.

Definition array_element (a : argument) : option element_type :=
  match a with
  | array_int32 _ _ => Some elem_int32_t
  | array_uint64 _ _ => Some elem_uint64_t
  | array_float64 _ _ => Some elem_double
  | array_string _ _ => Some elem_std_string
  | array_struct _ _ => Some elem_argument_struct_ptr
  | _ => None
  end.

(** The member [array_value_type{ get_type() }]. *)
Definition array_value_type (a : argument) : option tag :=
  option_map array_get_type (array_element a).

(** ** Encoding *)

Definition write_tag (x : tag) : mock_stream -> mock_stream :=
  stream.write [e_argument_type.to_byte x].

Definition write_size_t (n : Z) : mock_stream -> mock_stream :=
  stream.write_trivial 8 (size_t_cast n).

(** A range-for over a vector, each iteration writing to the stream. *)
Definition for_each {A} (f : A -> mock_stream -> mock_stream)
    (l : list A) (s : mock_stream) : mock_stream :=
  fold_left (fun s' v => f v s') l s.

(** What [write] does before it calls [write_value]: [argument::write] puts
    the tag and the name, the override [array::write] puts
    [array_value_type] between them. *)
Definition write_head (a : argument) (s : mock_stream) : mock_stream :=
  match array_value_type a with
  | Some sub_type =>
      stream.write_string (get_name a)
        (write_tag sub_type (write_tag (get_type a) s))
  | None =>
      stream.write_string (get_name a) (write_tag (get_type a) s)
  end.

(** The virtual [write_value] of each class.  A struct writes each child
    with the child's own [write]; an array of structs calls the element's
    [write_value], which is [write_values]. *)
Fixpoint write_value (a : argument) (s : mock_stream) {struct a} : mock_stream :=
  let write (v : argument) (s : mock_stream) :=
    write_value v (write_head v s) in
  let write_values (values : list argument) (s : mock_stream) :=
    for_each write values (write_size_t (vsize values) s) in
  match a with
  | int32 _ val => stream.write_trivial 4 (int32_bits val) s
  | uint64 _ val => stream.write_trivial 8 val s
  | float64 _ val => stream.write_trivial 8 val s
  | string _ val => stream.write_string val s
  | argument_blob _ m_blob =>
      stream.write m_blob
        (stream.write_trivial 4 (uint32_cast (vsize m_blob)) s)
  | argument_struct _ values => write_values values s
  | array_int32 _ val =>
      for_each (fun v => stream.write_trivial 4 (int32_bits v)) val
        (write_size_t (vsize val) s)
  | array_uint64 _ val =>
      for_each (fun v => stream.write_trivial 8 v) val
        (write_size_t (vsize val) s)
  | array_float64 _ val =>
      for_each (fun v => stream.write_trivial 8 v) val
        (write_size_t (vsize val) s)
  | array_string _ val =>
      for_each stream.write_string val (write_size_t (vsize val) s)
  | array_struct _ val =>
      for_each (fun v => write_values (snd v)) val
        (write_size_t (vsize val) s)
  end.

(** [write(TStream& stream)] *)
Definition write (a : argument) (s : mock_stream) : mock_stream :=
  write_value a (write_head a s).

(** [argument_struct::write_values] *)
Definition write_values (values : list argument) (s : mock_stream)
    : mock_stream :=
  for_each write values (write_size_t (vsize values) s).

(** ** Decoding *)

Definition read_tag : M byte :=
  bs <- stream.read 1 ;; ret (hd x00 bs).

Definition read_size_t : M Z := stream.read_trivial 8.

(** [for (std::size_t i{ 0 }; i < size; ++i)] with a body that reads one
    item from the stream; the items in reading order. *)
Fixpoint read_items {A} (size : nat) (item : M A) : M (list A) :=
  match size with
  | O => ret []
  | S size' => v <- item ;; vs <- read_items size' item ;; ret (v :: vs)
  end.

Definition set_name (name : std_string) (a : argument) : argument :=
  match a with
  | int32 _ v => int32 name v
  | uint64 _ v => uint64 name v
  | float64 _ v => float64 name v
  | string _ v => string name v
  | argument_blob _ v => argument_blob name v
  | argument_struct _ v => argument_struct name v
  | array_int32 _ v => array_int32 name v
  | array_uint64 _ v => array_uint64 name v
  | array_float64 _ v => array_float64 name v
  | array_string _ v => array_string name v
  | array_struct _ v => array_struct name v
  end.

Section Read.

(** The forward declaration of [serialize] that [argument_struct] is
    compiled against. *)
Variable serialize : M argument.

(** [argument_struct::read_values]: the children read are appended. *)
Definition read_values (values : list argument) : M (list argument) :=
  size <- read_size_t ;;
  vs <- read_items (Z.to_nat size) serialize ;;
  ret (values ++ vs).

(** The virtual [read_value] of each class.  The array reads append to
    [base::val]; a struct element is a default-constructed
    [argument_struct] whose [read_value] is then called.  The capacity
    request [reserve(size)] and the limits of allocation are not
    modelled. *)
Definition read_value (a : argument) : M argument :=
  match a with
  | int32 name _ =>
      v <- stream.read_trivial 4 ;; ret (int32 name (int32_of_bits v))
  | uint64 name _ =>
      v <- stream.read_trivial 8 ;; ret (uint64 name v)
  | float64 name _ =>
      v <- stream.read_trivial 8 ;; ret (float64 name v)
  | string name val =>
      v <- stream.read_string val ;; ret (string name v)
  | argument_blob name _ =>
      size <- stream.read_trivial 4 ;;
      bs <- stream.read (Z.to_nat size) ;;
      ret (argument_blob name bs)
  | argument_struct name values =>
      vs <- read_values values ;; ret (argument_struct name vs)
  | array_int32 name val =>
      size <- read_size_t ;;
      vs <- read_items (Z.to_nat size)
              (v <- stream.read_trivial 4 ;; ret (int32_of_bits v)) ;;
      ret (array_int32 name (val ++ vs))
  | array_uint64 name val =>
      size <- read_size_t ;;
      vs <- read_items (Z.to_nat size) (stream.read_trivial 8) ;;
      ret (array_uint64 name (val ++ vs))
  | array_float64 name val =>
      size <- read_size_t ;;
      vs <- read_items (Z.to_nat size) (stream.read_trivial 8) ;;
      ret (array_float64 name (val ++ vs))
  | array_string name val =>
      size <- read_size_t ;;
      vs <- read_items (Z.to_nat size) stream.read_new_string ;;
      ret (array_string name (val ++ vs))
  | array_struct name val =>
      size <- read_size_t ;;
      vs <- read_items (Z.to_nat size)
              (values <- read_values [] ;; ret ([], values)) ;;
      ret (array_struct name (val ++ vs))
  end.

(** [argument::read]: the name, then the payload. *)
Definition read (a : argument) : M argument :=
  name <- stream.read_string (get_name a) ;;
  read_value (set_name name a).

End Read.

(** *** The registry

    [std::unordered_map<e_argument_type, std::function<argument*(TStream&)>>]
    as the list of its entries.  A constructor may read from the stream and
    may return [nullptr]. *)

Definition constructor : Type := M (option argument).
Definition factory_impl_t : Type := list (tag * constructor).

Definition factory_find (type : tag) (f : factory_impl_t) : option constructor :=
  option_map snd (find (fun e => e_argument_type.eqb (fst e) type) f).

(** [emplace] inserts only when the key has no entry yet. *)
Definition emplace (type : tag) (c : constructor) (f : factory_impl_t)
    : factory_impl_t :=
  match factory_find type f with
  | Some _ => f
  | None => f ++ [(type, c)]
  end.

(** The lambda [register_type]: the entry returns [new arg_t()]. *)
Definition register_type (type : tag) (v : argument) : factory_impl_t -> factory_impl_t :=
  emplace type (ret (Some v)).

(** The array entry: the element tag is read, then the array is allocated. *)
Definition array_constructor : constructor :=
  sub_type <- read_tag ;;
  let sub_type_is x := Z_of_byte sub_type =? e_argument_type.ordinal x in
  if sub_type_is e_argument_type.int32 then ret (Some (array_int32 [] []))
  else if sub_type_is e_argument_type.float64 then ret (Some (array_float64 [] []))
  else if sub_type_is e_argument_type.string then ret (Some (array_string [] []))
  else if sub_type_is e_argument_type.uint64 then ret (Some (array_uint64 [] []))
  else if sub_type_is e_argument_type.struct_value then ret (Some (array_struct [] []))
  else ret None.

(** The registry after the block guarded by [factory_impl.empty()]. *)
Definition factory_impl : factory_impl_t :=
  emplace e_argument_type.array array_constructor
    (register_type e_argument_type.blob (argument_blob [] [])
    (register_type e_argument_type.struct_value (argument_struct [] [])
    (register_type e_argument_type.uint64 (uint64 [] 0)
    (register_type e_argument_type.string (string [] [])
    (register_type e_argument_type.float64 (float64 [] 0)
    (register_type e_argument_type.int32 (int32 [] 0) [])))))).

(** [factory_impl[type]]: a key without an entry gets a default-constructed,
    that is empty, [std::function]; [None] stands for it.  A byte that is no
    enumerator is a key like any other and has no entry. *)
Definition factory_lookup (type : byte) : option constructor :=
  match e_argument_type.of_byte type with
  | Some t => factory_find t factory_impl
  | None => None
  end.

(** The body of [serialize], its recursive calls going to [rec]. *)
Definition serialize_body (rec : M argument) : M argument :=
  type <- read_tag ;;
  match factory_lookup type with
  | None => raise bad_function_call
  | Some ctor =>
      new_argument <- ctor ;;
      match new_argument with
      | None => raise null_argument
      | Some a => read rec a
      end
  end.

(** Recursion of [serialize] through struct children, bounded by [fuel]
    levels of nesting. *)
Fixpoint serialize_fuel (fuel : nat) : M argument :=
  match fuel with
  | O => raise out_of_fuel
  | S fuel' => serialize_body (serialize_fuel fuel')
  end.

(** Every level of nesting consumes at least its tag byte, so the length of
    the stream bounds the depth (see [serialize_fuel_enough]). *)
Definition serialize : M argument :=
  fun s => serialize_fuel (S (length s)) s.

(** ** Typed access

    [as<TValue>()] is [*(TValue* )get_value_internal()]: the address of the
    stored member, read at whatever type the caller names. *)

Inductive cpp_type : Type :=
| int32_t
| uint64_t
| double
| std_string_t
| vector_uint8_t
| vector_argument_ptr
| vector_of (e : element_type).

Inductive cpp_value : Type :=
| val_int32 (z : Z)
| val_uint64 (z : Z)
| val_double (bits : Z)
| val_string (s : std_string)
| val_bytes (l : list byte)
| val_arguments (l : list argument)
| val_vector_int32 (l : list Z)
| val_vector_uint64 (l : list Z)
| val_vector_double (l : list Z)
| val_vector_string (l : list std_string)
| val_vector_struct (l : list (std_string * list argument)).

Fixpoint element_type_eqb (x y : element_type) : bool :=
  match x, y with
  | elem_int32_t, elem_int32_t
  | elem_uint64_t, elem_uint64_t
  | elem_double, elem_double
  | elem_std_string, elem_std_string
  | elem_argument_struct, elem_argument_struct => true
  | elem_pointer x', elem_pointer y' => element_type_eqb x' y'
  | _, _ => false
  end.

Definition cpp_type_eqb (x y : cpp_type) : bool :=
  match x, y with
  | int32_t, int32_t
  | uint64_t, uint64_t
  | double, double
  | std_string_t, std_string_t
  | vector_uint8_t, vector_uint8_t
  | vector_argument_ptr, vector_argument_ptr => true
  | vector_of e, vector_of e' => element_type_eqb e e'
  | _, _ => false
  end.

(** The member [get_value_internal] returns the address of, and its type. *)
Definition get_value_internal (a : argument) : cpp_value :=
  match a with
  | int32 _ val => val_int32 val
  | uint64 _ val => val_uint64 val
  | float64 _ val => val_double val
  | string _ val => val_string val
  | argument_blob _ m_blob => val_bytes m_blob
  | argument_struct _ values => val_arguments values
  | array_int32 _ val => val_vector_int32 val
  | array_uint64 _ val => val_vector_uint64 val
  | array_float64 _ val => val_vector_double val
  | array_string _ val => val_vector_string val
  | array_struct _ val => val_vector_struct val
  end.

Definition type_of (v : cpp_value) : cpp_type :=
  match v with
  | val_int32 _ => int32_t
  | val_uint64 _ => uint64_t
  | val_double _ => double
  | val_string _ => std_string_t
  | val_bytes _ => vector_uint8_t
  | val_arguments _ => vector_argument_ptr
  | val_vector_int32 _ => vector_of elem_int32_t
  | val_vector_uint64 _ => vector_of elem_uint64_t
  | val_vector_double _ => vector_of elem_double
  | val_vector_string _ => vector_of elem_std_string
  | val_vector_struct _ => vector_of elem_argument_struct_ptr
  end.


(** The bytes of a stored scalar.  The layout of the library's strings and
    vectors is not fixed by the language and is left out. *)
Definition object_representation (v : cpp_value) : option (list byte) :=
  match v with
  | val_int32 z => Some (le_bytes 4 (int32_bits z))
  | val_uint64 z => Some (le_bytes 8 z)
  | val_double bits => Some (le_bytes 8 bits)
  | _ => None
  end.

(** A scalar read from the first [sizeof(T)] bytes at an address. *)
Definition scalar_of_bytes (T : cpp_type) : option (nat * (list byte -> cpp_value)) :=
  match T with
  | int32_t => Some (4%nat, fun bs => val_int32 (int32_of_bits (le_value bs)))
  | uint64_t => Some (8%nat, fun bs => val_uint64 (le_value bs))
  | double => Some (8%nat, fun bs => val_double (le_value bs))
  | _ => None
  end.

(** What the cast pointer yields when [T] is not the type of the member. *)
Definition reinterpret (T : cpp_type) (v : cpp_value) : outcome cpp_value :=
  match scalar_of_bytes T, object_representation v with
  | Some (n, of_bytes), Some bs =>
      if (n <=? length bs)%nat then Ok (of_bytes (firstn n bs))
      else Fault out_of_bounds_read
  | _, _ => Fault unspecified_layout
  end.

(** [as<TValue>()].  Nothing compares [TValue] with the stored type; the
    test below only separates the read that is well-defined in C++ from the
    reinterpreting one. *)
Definition as_ (T : cpp_type) (a : argument) : outcome cpp_value :=
  let p := get_value_internal a in
  if cpp_type_eqb T (type_of p) then Ok p else reinterpret T p.

(** ** argument_struct: field access and release *)

Fixpoint string_eqb (x y : std_string) : bool :=
  match x, y with
  | [], [] => true
  | a :: x', b :: y' => Byte.eqb a b && string_eqb x' y'
  | _, _ => false
  end.

(** The scan of [field]: [arg] stays [nullptr] until a candidate matches. *)
Fixpoint field_scan (name : std_string) (values : list argument)
    : option argument :=
  match values with
  | [] => None
  | candidate :: rest =>
      if string_eqb (get_name candidate) name then Some candidate
      else field_scan name rest
  end.

(** [field<T>(name)]: [arg->as<T>()] on whatever the scan left in [arg]. *)
Definition field (T : cpp_type) (name : std_string) (values : list argument)
    : outcome cpp_value :=
  match field_scan name values with
  | Some arg => as_ T arg
  | None => Fault null_dereference
  end.

(** *** std::remove_if and std::vector::erase

    [remove_if] as the standard library implements it on forward iterators:
    [find_if] for the first match, then every later element that is kept is
    move-assigned to the position [first] and [first] advances.  Positions
    from the returned iterator on keep what they held.  Iterators are
    indices. *)

Section Vector.

Context {A : Type}.

Fixpoint assign (i : nat) (x : A) (v : list A) : list A :=
  match v, i with
  | [], _ => []
  | _ :: v', O => x :: v'
  | y :: v', S i' => y :: assign i' x v'
  end.

Fixpoint find_if (p : A -> bool) (v : list A) : nat :=
  match v with
  | [] => O
  | x :: v' => if p x then O else S (find_if p v')
  end.

(** [for (i = first; ++i != last;) if (!p( *i)) *first++ = std::move( *i);]
    with [i] the next index to look at and [todo] the number of indices
    left before [last]. *)
Fixpoint remove_if_loop (p : A -> bool) (todo : nat) (i : nat)
    (first : nat) (v : list A) : list A * nat :=
  match todo with
  | O => (v, first)
  | S todo' =>
      match nth_error v i with
      | Some x =>
          if p x then remove_if_loop p todo' (S i) first v
          else remove_if_loop p todo' (S i) (S first) (assign first x v)
      | None => (v, first)
      end
  end.

Definition remove_if (p : A -> bool) (v : list A) : list A * nat :=
  let first := find_if p v in
  if (first =? length v)%nat then (v, first)
  else remove_if_loop p (length v - S first) (S first) first v.

(** [erase(it)]: the one element at [it] goes. *)
Definition erase (it : nat) (v : list A) : list A :=
  firstn it v ++ skipn (S it) v.

End Vector.

(** [release(const std::string& name)]: the pointer returned ([None] for
    [nullptr]) and the children left. *)
Definition release (name : std_string) (values : list argument)
    : option argument * list argument :=
  let '(values', it) :=
    remove_if (fun arg => string_eqb (get_name arg) name) values in
  if negb (it =? length values')%nat
  then (nth_error values' it, erase it values')
  else (None, values').

(** ** struct_builder *)

Module struct_builder.

Record t : Type := { values : list argument }.

Definition create : t := {| values := [] |}.

(** [add<TValue>(args...)]: the new child is appended. *)
Definition add_new (a : argument) (b : t) : t :=
  {| values := values b ++ [a] |}.

(** [add(argument* )]: a null pointer is ignored. *)
Definition add (in_argument : option argument) (b : t) : t :=
  match in_argument with
  | Some a => {| values := values b ++ [a] |}
  | None => b
  end.

(** Move construction of a [std::vector]: the target takes the elements
    and the source is left empty. *)
Definition move_vector {A} (source : list A) : list A * list A :=
  (source, []).

(** [get(std::string&& name)]: the struct built and the builder after. *)
Definition get (name : std_string) (b : t) : argument * t :=
  let '(args, moved_from) := move_vector (values b) in
  (argument_struct name args, {| values := moved_from |}).

(** [~struct_builder()]: [assert(values.empty())]. *)
Definition destroy (b : t) : outcome unit :=
  match values b with
  | [] => Ok tt
  | _ :: _ => Fault builder_not_empty
  end.

End struct_builder.

(** ** Predicates used in the statements *)

Definition is_scalar (a : argument) : bool :=
  match a with
  | int32 _ _ | uint64 _ _ | float64 _ _ | string _ _ => true
  | _ => false
  end.

Definition is_scalar_array (a : argument) : bool :=
  match a with
  | array_int32 _ _ | array_uint64 _ _ | array_float64 _ _
  | array_string _ _ => true
  | _ => false
  end.

Definition in_int32 (z : Z) : bool := (- 2 ^ 31 <=? z) && (z <? 2 ^ 31).
Definition in_uint64 (z : Z) : bool := (0 <=? z) && (z <? 2 ^ 64).
Definition in_size_t {A} (l : list A) : bool := vsize l <? 2 ^ 64.

(** The payload is a value of its C++ type: integers within their width, a
    [double] as 64 bits, element counts within [std::size_t]. *)
Fixpoint well_typed (a : argument) : bool :=
  match a with
  | int32 _ val => in_int32 val
  | uint64 _ val => in_uint64 val
  | float64 _ val => in_uint64 val
  | string _ _ => true
  | argument_blob _ m_blob => in_size_t m_blob
  | argument_struct _ values => in_size_t values && forallb well_typed values
  | array_int32 _ val => in_size_t val && forallb in_int32 val
  | array_uint64 _ val => in_size_t val && forallb in_uint64 val
  | array_float64 _ val => in_size_t val && forallb in_uint64 val
  | array_string _ val => in_size_t val
  | array_struct _ val =>
      in_size_t val
      && forallb (fun e => in_size_t (snd e) && forallb well_typed (snd e)) val
  end.

(** A string whose size survives the cast to [uint16_t]. *)
Definition short (s : std_string) : bool := vsize s <? 2 ^ 16.

(** Every name and string is [short], every blob size survives the cast to
    [uint32_t], and no array of structs occurs. *)
Fixpoint transmissible (a : argument) : bool :=
  match a with
  | int32 name _ | uint64 name _ | float64 name _ => short name
  | string name val => short name && short val
  | argument_blob name m_blob => short name && (vsize m_blob <? 2 ^ 32)
  | argument_struct name values => short name && forallb transmissible values
  | array_int32 name _ | array_uint64 name _ | array_float64 name _ =>
      short name
  | array_string name val => short name && forallb short val
  | array_struct _ _ => false
  end.

(** [new arg_t()] for the class of [a]: the default-constructed instance the
    registry entry of that class returns. *)
Definition default_instance (a : argument) : argument :=
  match a with
  | int32 _ _ => int32 [] 0
  | uint64 _ _ => uint64 [] 0
  | float64 _ _ => float64 [] 0
  | string _ _ => string [] []
  | argument_blob _ _ => argument_blob [] []
  | argument_struct _ _ => argument_struct [] []
  | array_int32 _ _ => array_int32 [] []
  | array_uint64 _ _ => array_uint64 [] []
  | array_float64 _ _ => array_float64 [] []
  | array_string _ _ => array_string [] []
  | array_struct _ _ => array_struct [] []
  end.

(** [m] consumes exactly [bs] from the front of any stream and returns [a]. *)
Definition reads {A} (m : M A) (bs : list byte) (a : A) : Prop :=
  forall rest, m (bs ++ rest) = Ok (a, rest).

(** On streams of at most [n] bytes, [m] does not hit the recursion bound of
    the model and leaves a stream that is no longer than the one it got. *)
Definition bounded {A} (n : nat) (m : M A) : Prop :=
  forall s, (length s <= n)%nat ->
    m s <> Fault out_of_fuel /\
    forall a s', m s = Ok (a, s') -> (length s' <= length s)%nat.

(** What a decode returned, if it returned. *)
Definition returned {A} (r : outcome (A * mock_stream)) : option A :=
  match r with
  | Ok (a, _) => Some a
  | _ => None
  end.

(** Names of the repository's test scenarios, and a string one byte too
    long for a 16-bit size. *)
Definition name_Base : std_string := ["B"; "a"; "s"; "e"]%byte.
Definition name_arr_arg : std_string :=
  ["a"; "r"; "r"; "_"; "a"; "r"; "g"]%byte.
Definition name_a : std_string := ["a"]%byte.
Definition name_b : std_string := ["b"]%byte.
Definition name_x : std_string := ["x"]%byte.
Definition name_y : std_string := ["y"]%byte.
Definition long_string : std_string := repeat "a"%byte (2 ^ 16)%nat.

Definition name_root : std_string := ["r"; "o"; "o"; "t"]%byte.
Definition string_hi : std_string := ["h"; "i"]%byte.

(** The third scenario of the specification: a builder is given an int32
    "a" = 1 and a struct "b" holding the string "x" = "hi", and builds
    "root". *)
Definition scenario_root : argument :=
  fst (struct_builder.get name_root
         (struct_builder.add_new
            (argument_struct name_b [string name_x string_hi])
            (struct_builder.add_new (int32 name_a 1) struct_builder.create))).

(** *** release(argument<TStream>* in_argument)

    The vector of children as the addresses it holds; the call compares
    addresses and nothing else.  [std::remove(first, last, value)] is
    [remove_if] with the test [*i == value].  [erase] at [end()] has no
    defined behaviour: [None] stands for it. *)
Definition pointer : Type := nat.

Definition std_remove (value : pointer) (v : list pointer)
    : list pointer * nat :=
  remove_if (fun x => Nat.eqb x value) v.

Definition release_pointer (in_argument : pointer) (values : list pointer)
    : option (list pointer) :=
  let '(values', it) := std_remove in_argument values in
  if (it =? length values')%nat then None else Some (erase it values').

(** The test of [release(name)]'s lambda. *)
Definition has_name (name : std_string) (arg : argument) : bool :=
  string_eqb (get_name arg) name.

(** The pointers a caller passed to [add] that were not null, in order. *)
Definition non_null (ps : list (option argument)) : list argument :=
  flat_map (fun p => match p with Some a => [a] | None => [] end) ps.

(** [read(TStream&)] called on an instance the caller holds.  The calls of
    [serialize] it makes for the children of a struct get the bound
    [serialize] would give itself on the same stream. *)
Definition read_from (a : argument) : M argument :=
  fun s => read (serialize_fuel (S (length s))) a s.

(** The elements [remove_if] does not remove, in order. *)
Definition kept {A} (p : A -> bool) (v : list A) : list A :=
  filter (fun x => negb (p x)) v.

(** ** Bytes *)

Lemma Z_of_byte_of_Z (z : Z) : Z_of_byte (byte_of_Z z) = z mod 256.
Proof.
  unfold Z_of_byte, byte_of_Z.
  assert (Hm : 0 <= z mod 256 < 256) by (apply Z.mod_pos_bound; lia).
  destruct (Byte.of_N (Z.to_N (z mod 256))) as [b|] eqn:E.
  - apply Byte.to_of_N in E. rewrite E. apply Z2N.id. lia.
  - apply Byte.of_N_None_iff in E. lia.
Qed.

Lemma le_bytes_length (n : nat) (v : Z) : length (le_bytes n v) = n.
Proof.
  revert v. induction n as [|n IH]; intros v; simpl; [reflexivity|].
  now rewrite IH.
Qed.

(** Only the low [n] bytes of a value are stored. *)
Lemma le_value_le_bytes_mod (n : nat) :
  forall v, le_value (le_bytes n v) = v mod 256 ^ Z.of_nat n.
Proof.
  induction n as [|n IH]; intros v.
  - cbn. now rewrite Z.mod_1_r.
  - cbn [le_bytes le_value]. rewrite Z_of_byte_of_Z, IH.
    rewrite Nat2Z.inj_succ, Z.pow_succ_r by lia.
    rewrite Z.rem_mul_r; [reflexivity | lia | apply Z.pow_pos_nonneg; lia].
Qed.

Lemma le_value_le_bytes (n : nat) :
  forall v, 0 <= v < 256 ^ Z.of_nat n -> le_value (le_bytes n v) = v.
Proof.
  intros v Hv. rewrite le_value_le_bytes_mod. now apply Z.mod_small.
Qed.

Lemma int32_of_bits_bits (z : Z) :
  in_int32 z = true -> int32_of_bits (int32_bits z) = z.
Proof.
  unfold in_int32, int32_of_bits, int32_bits. intros H.
  apply andb_true_iff in H. destruct H as [H1 H2].
  apply Z.leb_le in H1. apply Z.ltb_lt in H2.
  destruct (Z_lt_le_dec z 0) as [Hneg|Hpos].
  - replace (z mod 2 ^ 32) with (z + 2 ^ 32).
    + destruct (Z.ltb_spec (z + 2 ^ 32) (2 ^ 31)); lia.
    + apply Z.mod_unique with (q := -1); lia.
  - rewrite Z.mod_small by lia.
    destruct (Z.ltb_spec z (2 ^ 31)); lia.
Qed.

Lemma int32_bits_range (z : Z) : 0 <= int32_bits z < 256 ^ Z.of_nat 4.
Proof.
  unfold int32_bits. change (256 ^ Z.of_nat 4) with (2 ^ 32).
  apply Z.mod_pos_bound. lia.
Qed.

(** ** The stream: what is written is what is read *)

Lemma reads_ret {A} (a : A) : reads (ret a) [] a.
Proof. intros rest. reflexivity. Qed.

Lemma reads_bind {A B} (m : M A) (k : A -> M B) bs bs' a b :
  reads m bs a -> reads (k a) bs' b -> reads (bind m k) (bs ++ bs') b.
Proof.
  intros Hm Hk rest. unfold bind.
  rewrite <- app_assoc, Hm. apply Hk.
Qed.

Lemma reads_bind_ret {A B} (m : M A) (f : A -> B) bs a :
  reads m bs a -> reads (bind m (fun x => ret (f x))) bs (f a).
Proof.
  intros Hm. rewrite <- (app_nil_r bs).
  eapply reads_bind; [exact Hm | apply reads_ret].
Qed.

Lemma reads_stream_read (bs : list byte) :
  reads (stream.read (length bs)) bs bs.
Proof.
  intros rest. unfold stream.read.
  rewrite length_app.
  destruct (Nat.leb_spec (length bs) (length bs + length rest)) as [_|H];
    [|lia].
  rewrite firstn_app, Nat.sub_diag, firstn_all, firstn_O, app_nil_r.
  rewrite skipn_app, Nat.sub_diag, skipn_all. reflexivity.
Qed.

Lemma reads_read_trivial (n : nat) (v : Z) :
  0 <= v < 256 ^ Z.of_nat n ->
  reads (stream.read_trivial n) (le_bytes n v) v.
Proof.
  intros Hv. unfold stream.read_trivial.
  rewrite <- (le_value_le_bytes n v Hv) at 2.
  apply reads_bind_ret.
  rewrite <- (le_bytes_length n v) at 1. apply reads_stream_read.
Qed.

Lemma write_string_app (val : std_string) (s : mock_stream) :
  stream.write_string val s = s ++ stream.write_string val [].
Proof.
  unfold stream.write_string, stream.write_trivial, stream.write.
  rewrite <- app_assoc. reflexivity.
Qed.

Lemma uint16_cast_short (val : std_string) :
  short val = true -> uint16_cast (vsize val) = vsize val.
Proof.
  unfold short, uint16_cast, vsize. intros H. apply Z.ltb_lt in H.
  apply Z.mod_small. lia.
Qed.

(** A short string is read back; an empty one leaves the target as it was. *)
Lemma reads_read_string (old val : std_string) :
  short val = true ->
  reads (stream.read_string old) (stream.write_string val [])
        (match val with [] => old | _ :: _ => val end).
Proof.
  intros Hs. pose proof (uint16_cast_short val Hs) as Hc.
  unfold stream.write_string, stream.write_trivial, stream.write.
  rewrite Hc. cbn [app]. unfold stream.read_string.
  unfold short, vsize in *. apply Z.ltb_lt in Hs.
  eapply reads_bind.
  - apply reads_read_trivial. change (256 ^ Z.of_nat 2) with (2 ^ 16). lia.
  - destruct val as [|c val'].
    + cbn. apply reads_ret.
    + destruct (Z.ltb_spec 0 (Z.of_nat (length (c :: val')))) as [_|H];
        [|cbn [length] in H; lia].
      rewrite Nat2Z.id. apply reads_stream_read.
Qed.

Lemma reads_read_new_string (val : std_string) :
  short val = true ->
  reads stream.read_new_string (stream.write_string val []) val.
Proof.
  intros Hs. unfold stream.read_new_string.
  pose proof (reads_read_string [] val Hs) as H.
  destruct val; exact H.
Qed.

Lemma reads_read_items {A} (item : M A) (enc : A -> list byte) (l : list A) :
  (forall v, In v l -> reads item (enc v) v) ->
  reads (read_items (length l) item) (flat_map enc l) l.
Proof.
  induction l as [|x l IH]; intros H.
  - apply reads_ret.
  - cbn [length read_items flat_map].
    eapply reads_bind; [apply H; now left|].
    apply reads_bind_ret. apply IH. intros v Hv. apply H. now right.
Qed.

Lemma for_each_app {A} (f : A -> mock_stream -> mock_stream) (l : list A) :
  (forall v, In v l -> forall s, f v s = s ++ f v []) ->
  forall s, for_each f l s = s ++ flat_map (fun v => f v []) l.
Proof.
  unfold for_each. induction l as [|x l IH]; intros H s.
  - simpl. now rewrite app_nil_r.
  - cbn [fold_left flat_map]. rewrite IH.
    + rewrite (H x (or_introl eq_refl) s). now rewrite app_assoc.
    + intros v Hv. apply H. now right.
Qed.

Lemma write_trivial_app (n : nat) (v : Z) (s : mock_stream) :
  stream.write_trivial n v s = s ++ stream.write_trivial n v [].
Proof. reflexivity. Qed.

Lemma write_size_t_app (n : Z) (s : mock_stream) :
  write_size_t n s = s ++ write_size_t n [].
Proof. reflexivity. Qed.

Lemma write_tag_app (x : tag) (s : mock_stream) :
  write_tag x s = s ++ [e_argument_type.to_byte x].
Proof. reflexivity. Qed.

Lemma write_head_app (a : argument) (s : mock_stream) :
  write_head a s = s ++ write_head a [].
Proof.
  unfold write_head. destruct (array_value_type a) as [sub_type|].
  - rewrite write_string_app, !write_tag_app.
    rewrite (write_string_app _ (_ ++ _)). cbn [app].
    now rewrite <- !app_assoc.
  - rewrite write_string_app, !write_tag_app.
    rewrite (write_string_app _ (_ ++ _)). cbn [app].
    now rewrite <- !app_assoc.
Qed.

(** Induction on arguments that reaches the children of structs and of the
    struct elements of arrays. *)
Lemma argument_nested_ind (P : argument -> Prop) :
  (forall a, (forall values, get_value_internal a = val_arguments values ->
                             Forall P values) ->
             (forall val, get_value_internal a = val_vector_struct val ->
                          Forall (fun e => Forall P (snd e)) val) ->
             P a) ->
  forall a, P a.
Proof.
  intros step. fix IH 1. intros a. apply step.
  - destruct a; cbn; intros vs E; try discriminate.
    injection E as <-.
    induction values as [|v values IHv]; constructor; [apply IH | exact IHv].
  - destruct a; cbn; intros es E; try discriminate.
    injection E as <-.
    induction val as [|[n vs] val IHe]; constructor; [|exact IHe].
    cbn. induction vs as [|v vs IHv]; constructor; [apply IH | exact IHv].
Qed.

(** ** Writing appends *)

Lemma write_unfold (a : argument) (s : mock_stream) :
  write a s = write_value a (write_head a s).
Proof. reflexivity. Qed.

Lemma write_value_struct name values s :
  write_value (argument_struct name values) s = write_values values s.
Proof. reflexivity. Qed.

Lemma write_value_array_struct name val s :
  write_value (array_struct name val) s =
  for_each (fun v => write_values (snd v)) val (write_size_t (vsize val) s).
Proof. reflexivity. Qed.

Lemma write_app_of_value (a : argument) :
  (forall s, write_value a s = s ++ write_value a []) ->
  forall s, write a s = s ++ write a [].
Proof.
  intros H s. rewrite !write_unfold, H, (H (write_head a [])).
  rewrite (write_head_app a s). now rewrite app_assoc.
Qed.

Lemma write_values_app (values : list argument) :
  Forall (fun v => forall s, write_value v s = s ++ write_value v []) values ->
  forall s, write_values values s = s ++ write_values values [].
Proof.
  intros H s. unfold write_values.
  assert (Hw : forall v, In v values -> forall s, write v s = s ++ write v []).
  { intros v Hv. apply write_app_of_value.
    rewrite Forall_forall in H. now apply H. }
  rewrite !(for_each_app write values Hw).
  rewrite (write_size_t_app _ s). now rewrite <- !app_assoc.
Qed.

Lemma write_value_app (a : argument) :
  forall s, write_value a s = s ++ write_value a [].
Proof.
  induction a as [a IHs IHe] using argument_nested_ind.
  assert (Htriv : forall n (g : Z -> Z) (l : list Z) s,
            for_each (fun v => stream.write_trivial n (g v)) l
              (write_size_t (vsize l) s) =
            s ++ for_each (fun v => stream.write_trivial n (g v)) l
                   (write_size_t (vsize l) [])).
  { intros n g l s.
    rewrite !(for_each_app (fun v => stream.write_trivial n (g v)))
      by (intros; apply write_trivial_app).
    rewrite (write_size_t_app _ s). now rewrite <- !app_assoc. }
  destruct a; intros s; cbn [write_value].
  - apply write_trivial_app.
  - apply write_trivial_app.
  - apply write_trivial_app.
  - apply write_string_app.
  - unfold stream.write, stream.write_trivial, stream.write.
    now rewrite <- !app_assoc.
  - apply write_values_app. now apply IHs.
  - apply (Htriv 4%nat int32_bits).
  - apply (Htriv 8%nat (fun v => v)).
  - apply (Htriv 8%nat (fun v => v)).
  - rewrite !(for_each_app stream.write_string)
      by (intros; apply write_string_app).
    rewrite (write_size_t_app _ s). now rewrite <- !app_assoc.
  - change (for_each (fun v => write_values (snd v)) val
              (write_size_t (vsize val) s) =
            s ++ for_each (fun v => write_values (snd v)) val
                   (write_size_t (vsize val) [])).
    assert (He : forall v, In v val ->
                 forall s, write_values (snd v) s = s ++ write_values (snd v) []).
    { intros v Hv. apply write_values_app.
      specialize (IHe val eq_refl). rewrite Forall_forall in IHe.
      now apply IHe. }
    rewrite !(for_each_app (fun v => write_values (snd v)) val He).
    rewrite (write_size_t_app _ s). now rewrite <- !app_assoc.
Qed.

Lemma write_app (a : argument) (s : mock_stream) :
  write a s = s ++ write a [].
Proof. apply write_app_of_value, write_value_app. Qed.

Lemma write_values_flat (values : list argument) :
  write_values values [] =
  write_size_t (vsize values) [] ++ flat_map (fun v => write v []) values.
Proof.
  unfold write_values.
  rewrite (for_each_app write) by (intros; apply write_app).
  reflexivity.
Qed.

(** ** Reading back what was written *)

Lemma reads_eq {A} (m : M A) bs bs' a a' :
  reads m bs a -> bs = bs' -> a = a' -> reads m bs' a'.
Proof. now intros H <- <-. Qed.

Lemma size_t_cast_size {A} (l : list A) :
  in_size_t l = true -> size_t_cast (vsize l) = vsize l.
Proof.
  unfold in_size_t, size_t_cast, vsize. intros H. apply Z.ltb_lt in H.
  apply Z.mod_small. lia.
Qed.

Lemma reads_read_size_t {A} (l : list A) :
  in_size_t l = true ->
  reads read_size_t (write_size_t (vsize l) []) (vsize l).
Proof.
  intros H. unfold read_size_t, write_size_t.
  rewrite (size_t_cast_size l H).
  apply reads_read_trivial.
  unfold in_size_t, vsize in *. apply Z.ltb_lt in H.
  change (256 ^ Z.of_nat 8) with (2 ^ 64). lia.
Qed.

(** The count and the items of a vector, written by a range-for and read
    by the counting loop. *)
Lemma reads_counted_items {A B} (item : M A)
    (w : A -> mock_stream -> mock_stream) (f : list A -> B) (val : list A) :
  in_size_t val = true ->
  (forall v, In v val -> forall s, w v s = s ++ w v []) ->
  (forall v, In v val -> reads item (w v []) v) ->
  reads (size <- read_size_t ;;
         vs <- read_items (Z.to_nat size) item ;;
         ret (f ([] ++ vs)))
        (for_each w val (write_size_t (vsize val) []))
        (f val).
Proof.
  intros Hsize Happ Hitem.
  rewrite (for_each_app w val Happ).
  eapply reads_bind; [apply reads_read_size_t, Hsize|].
  unfold vsize. rewrite Nat2Z.id.
  apply (reads_bind_ret _ (fun vs => f ([] ++ vs))).
  now apply reads_read_items.
Qed.

Lemma reads_read_values (rec : M argument) (values : list argument) :
  in_size_t values = true ->
  (forall v, In v values -> reads rec (write v []) v) ->
  reads (read_values rec []) (write_values values []) values.
Proof.
  intros Hsize Hrec. unfold read_values, write_values.
  apply (reads_counted_items rec write (fun vs => vs)); auto.
  intros v _ s. apply write_app.
Qed.

Lemma reads_read_tag (b : byte) : reads read_tag [b] b.
Proof.
  unfold read_tag.
  apply (reads_bind_ret (stream.read 1) (hd x00) [b] [b]).
  apply (reads_stream_read [b]).
Qed.

(** [read] on a freshly constructed instance whose name is still empty. *)
Lemma reads_read (rec : M argument) (a0 : argument) name payload a :
  get_name a0 = [] ->
  short name = true ->
  reads (read_value rec (set_name name a0)) payload a ->
  reads (read rec a0) (stream.write_string name [] ++ payload) a.
Proof.
  intros Hn Hs Hv. unfold read. rewrite Hn.
  eapply reads_bind; [apply reads_read_new_string, Hs | exact Hv].
Qed.

(** A registered class: the entry constructs the default instance. *)
Lemma reads_serialize_body (rec : M argument) (t : tag) (a0 a : argument) bs :
  factory_lookup (e_argument_type.to_byte t) = Some (ret (Some a0)) ->
  reads (read rec a0) bs a ->
  reads (serialize_body rec) (e_argument_type.to_byte t :: bs) a.
Proof.
  intros Hf Hr. unfold serialize_body.
  change (e_argument_type.to_byte t :: bs)
    with ([e_argument_type.to_byte t] ++ bs).
  eapply reads_bind; [apply reads_read_tag|].
  rewrite Hf. change bs with ([] ++ bs).
  eapply reads_bind; [apply reads_ret | exact Hr].
Qed.

(** The array class: the entry reads the element tag first. *)
Lemma reads_serialize_body_array (rec : M argument) (e : tag) (a0 a : argument) bs :
  reads array_constructor [e_argument_type.to_byte e] (Some a0) ->
  reads (read rec a0) bs a ->
  reads (serialize_body rec)
        (e_argument_type.to_byte e_argument_type.array
           :: e_argument_type.to_byte e :: bs) a.
Proof.
  intros Hc Hr. unfold serialize_body.
  change (e_argument_type.to_byte e_argument_type.array
            :: e_argument_type.to_byte e :: bs)
    with ([e_argument_type.to_byte e_argument_type.array]
            ++ [e_argument_type.to_byte e] ++ bs).
  eapply reads_bind; [apply reads_read_tag|].
  change (factory_lookup (e_argument_type.to_byte e_argument_type.array))
    with (Some array_constructor).
  eapply reads_bind; [exact Hc | exact Hr].
Qed.

Lemma write_head_plain (a : argument) :
  is_array a = false ->
  write_head a [] =
  e_argument_type.to_byte (get_type a) :: stream.write_string (get_name a) [].
Proof.
  intros H. unfold write_head.
  destruct a; try discriminate H; cbn [array_value_type array_element option_map];
    rewrite write_string_app; reflexivity.
Qed.

Lemma write_head_array (a : argument) (e : element_type) :
  array_element a = Some e ->
  write_head a [] =
  e_argument_type.to_byte e_argument_type.array
    :: e_argument_type.to_byte (array_get_type e)
    :: stream.write_string (get_name a) [].
Proof.
  intros H. unfold write_head, array_value_type. rewrite H. cbn [option_map].
  rewrite write_string_app.
  destruct a; try discriminate H; reflexivity.
Qed.

Lemma in_uint64_range (z : Z) :
  in_uint64 z = true -> 0 <= z < 256 ^ Z.of_nat 8.
Proof.
  unfold in_uint64. intros H. apply andb_true_iff in H. destruct H as [H1 H2].
  apply Z.leb_le in H1. apply Z.ltb_lt in H2.
  change (256 ^ Z.of_nat 8) with (2 ^ 64). lia.
Qed.

Lemma reads_int32_item (v : Z) :
  in_int32 v = true ->
  reads (u <- stream.read_trivial 4 ;; ret (int32_of_bits u))
        (stream.write_trivial 4 (int32_bits v) []) v.
Proof.
  intros Hv.
  eapply reads_eq;
    [ apply (reads_bind_ret (stream.read_trivial 4) int32_of_bits),
        (reads_read_trivial 4 (int32_bits v)), int32_bits_range
    | reflexivity
    | now apply int32_of_bits_bits ].
Qed.

Lemma reads_uint64_item (v : Z) :
  in_uint64 v = true ->
  reads (stream.read_trivial 8) (stream.write_trivial 8 v []) v.
Proof. intros Hv. apply reads_read_trivial, in_uint64_range, Hv. Qed.

Lemma In_forallb {A} (f : A -> bool) (l : list A) (v : A) :
  forallb f l = true -> In v l -> f v = true.
Proof. intros H Hv. rewrite forallb_forall in H. now apply H. Qed.

(** The payload of a well-typed, transmissible argument is read back by the
    [read_value] of a default instance that was given the name, provided
    the children of a struct are read back by the recursive call. *)
Lemma reads_read_value (rec : M argument) (a : argument) :
  well_typed a = true ->
  transmissible a = true ->
  (forall values, get_value_internal a = val_arguments values ->
                  forall v, In v values -> reads rec (write v []) v) ->
  reads (read_value rec (set_name (get_name a) (default_instance a)))
        (write_value a []) a.
Proof.
  intros Hwt Htr Hrec.
  destruct a; cbn [well_typed transmissible] in Hwt, Htr;
    cbn [get_name default_instance set_name read_value write_value];
    repeat match goal with
           | H : _ && _ = true |- _ =>
               apply andb_true_iff in H; destruct H
           end.
  - eapply reads_eq;
      [ apply (reads_bind_ret (stream.read_trivial 4)
                 (fun v => int32 name (int32_of_bits v))),
          (reads_read_trivial 4 (int32_bits val)), int32_bits_range
      | reflexivity
      | now rewrite int32_of_bits_bits ].
  - apply (reads_bind_ret (stream.read_trivial 8) (uint64 name)).
    now apply reads_uint64_item.
  - apply (reads_bind_ret (stream.read_trivial 8) (float64 name)).
    now apply reads_uint64_item.
  - apply (reads_bind_ret (stream.read_string []) (string name)).
    now apply reads_read_new_string.
  - unfold stream.write_trivial, stream.write. cbn [app].
    assert (Hc : uint32_cast (vsize m_blob) = vsize m_blob).
    { unfold uint32_cast. apply Z.mod_small.
      match goal with H : (_ <? 2 ^ 32) = true |- _ => apply Z.ltb_lt in H end.
      unfold vsize in *. lia. }
    rewrite Hc.
    eapply reads_bind.
    + apply reads_read_trivial.
      match goal with H : (_ <? 2 ^ 32) = true |- _ => apply Z.ltb_lt in H end.
      unfold vsize in *. change (256 ^ Z.of_nat 4) with (2 ^ 32). lia.
    + unfold vsize. rewrite Nat2Z.id.
      apply (reads_bind_ret _ (argument_blob name)), reads_stream_read.
  - apply (reads_bind_ret (read_values rec []) (argument_struct name)).
    apply reads_read_values; [assumption|].
    apply (Hrec values eq_refl).
  - apply (reads_counted_items _
             (fun v => stream.write_trivial 4 (int32_bits v))
             (array_int32 name)); [assumption | reflexivity |].
    intros v Hv. apply reads_int32_item. eapply In_forallb; eassumption.
  - apply (reads_counted_items _ (fun v => stream.write_trivial 8 v)
             (array_uint64 name)); [assumption | reflexivity |].
    intros v Hv. apply reads_uint64_item. eapply In_forallb; eassumption.
  - apply (reads_counted_items _ (fun v => stream.write_trivial 8 v)
             (array_float64 name)); [assumption | reflexivity |].
    intros v Hv. apply reads_uint64_item. eapply In_forallb; eassumption.
  - apply (reads_counted_items _ stream.write_string (array_string name));
      [assumption | intros; apply write_string_app |].
    intros v Hv. apply reads_read_new_string. eapply In_forallb; eassumption.
  - discriminate.
Qed.

Lemma length_flat_map_In {A B} (enc : A -> list B) (l : list A) (v : A) :
  In v l -> (length (enc v) <= length (flat_map enc l))%nat.
Proof.
  induction l as [|x l IH]; intros Hv; [destruct Hv|].
  cbn [flat_map]. rewrite length_app.
  destruct Hv as [->|Hv]; [lia | specialize (IH Hv); lia].
Qed.

Lemma factory_lookup_default (a : argument) :
  is_array a = false ->
  factory_lookup (e_argument_type.to_byte (get_type a))
  = Some (ret (Some (default_instance a))).
Proof. destruct a; intros H; try discriminate H; reflexivity. Qed.

Lemma array_constructor_default (a : argument) (e : element_type) :
  is_scalar_array a = true ->
  array_element a = Some e ->
  reads array_constructor [e_argument_type.to_byte (array_get_type e)]
        (Some (default_instance a)).
Proof.
  intros Hs He rest.
  destruct a; try discriminate Hs; injection He as <-; reflexivity.
Qed.

Lemma get_name_default (a : argument) : get_name (default_instance a) = [].
Proof. destruct a; reflexivity. Qed.

Lemma transmissible_short_name (a : argument) :
  transmissible a = true -> short (get_name a) = true.
Proof.
  destruct a; cbn [transmissible get_name]; intros H;
    try discriminate H; try exact H;
    apply andb_true_iff in H; apply H.
Qed.

(** One level of [serialize], the recursive calls being any decoder that
    reads the children back. *)
Lemma reads_serialize_body_write (rec : M argument) (a : argument) :
  well_typed a = true ->
  transmissible a = true ->
  (forall values, get_value_internal a = val_arguments values ->
                  forall v, In v values -> reads rec (write v []) v) ->
  reads (serialize_body rec) (write a []) a.
Proof.
  intros Hwt Htr Hrec.
  pose proof (reads_read_value rec a Hwt Htr Hrec) as Hv.
  pose proof (transmissible_short_name a Htr) as Hs.
  rewrite write_unfold, write_value_app.
  destruct (is_array a) eqn:Harr.
  - assert (Hsa : is_scalar_array a = true)
      by (destruct a; try discriminate; reflexivity).
    destruct (array_element a) as [e|] eqn:He;
      [|destruct a; discriminate].
    rewrite (write_head_array a e He). cbn [app].
    eapply reads_serialize_body_array.
    + exact (array_constructor_default a e Hsa He).
    + apply reads_read; [apply get_name_default | exact Hs | exact Hv].
  - rewrite (write_head_plain a Harr). cbn [app].
    eapply reads_serialize_body.
    + now apply factory_lookup_default.
    + apply reads_read; [apply get_name_default | exact Hs | exact Hv].
Qed.

Lemma write_length_pos (a : argument) : (1 <= length (write a []))%nat.
Proof.
  rewrite write_unfold, write_value_app, length_app.
  destruct (is_array a) eqn:Harr.
  - destruct (array_element a) as [e|] eqn:He; [|destruct a; discriminate].
    rewrite (write_head_array a e He). cbn [length]. lia.
  - rewrite (write_head_plain a Harr). cbn [length]. lia.
Qed.

Lemma child_write_shorter (name : std_string) (values : list argument) v :
  In v values ->
  (length (write v []) < length (write (argument_struct name values) []))%nat.
Proof.
  intros Hv.
  rewrite (write_unfold (argument_struct _ _)), write_value_app, length_app.
  rewrite write_head_plain by reflexivity.
  rewrite write_value_struct, write_values_flat, length_app.
  pose proof (length_flat_map_In (fun v => write v []) values v Hv).
  cbn [length]. lia.
Qed.

(** Round trip with any fuel that covers the length of the encoding. *)
Lemma reads_serialize_fuel (a : argument) :
  forall fuel,
    well_typed a = true ->
    transmissible a = true ->
    (length (write a []) <= fuel)%nat ->
    reads (serialize_fuel fuel) (write a []) a.
Proof.
  induction a as [a IHs _] using argument_nested_ind.
  intros [|fuel] Hwt Htr Hlen.
  - pose proof (write_length_pos a). lia.
  - cbn [serialize_fuel]. apply reads_serialize_body_write; try assumption.
    intros values E v Hv.
    specialize (IHs values E). rewrite Forall_forall in IHs.
    destruct a; try discriminate E. cbn in E. injection E as <-.
    cbn [well_typed transmissible] in Hwt, Htr.
    apply andb_true_iff in Hwt, Htr. destruct Hwt as [_ Hwt], Htr as [_ Htr].
    apply IHs; [exact Hv | | |].
    + eapply In_forallb; eassumption.
    + eapply In_forallb; eassumption.
    + pose proof (child_write_shorter name values0 v Hv). lia.
Qed.

(** Round trip of [serialize] after [write], whatever follows on the
    stream. *)
Lemma serialize_write (a : argument) (rest : mock_stream) :
  well_typed a = true ->
  transmissible a = true ->
  serialize (write a [] ++ rest) = Ok (a, rest).
Proof.
  intros Hwt Htr. unfold serialize.
  apply reads_serialize_fuel; try assumption.
  rewrite length_app. lia.
Qed.

(** ** The recursion bound is never reached *)

Lemma bounded_ret {A} n (a : A) : bounded n (ret a).
Proof.
  intros s _. split; [discriminate|].
  intros a' s' E. injection E as _ <-. lia.
Qed.

Lemma bounded_raise {A} n (f : fault) :
  f <> out_of_fuel -> bounded n (@raise A f).
Proof.
  intros Hf s _. split; [intros E; injection E as E; contradiction|].
  discriminate.
Qed.

Lemma bounded_bind {A B} n (m : M A) (k : A -> M B) :
  bounded n m -> (forall a, bounded n (k a)) -> bounded n (bind m k).
Proof.
  intros Hm Hk s Hs. unfold bind.
  destruct (Hm s Hs) as [Hf Hl].
  destruct (m s) as [[a s1]|e|f] eqn:E.
  - specialize (Hl a s1 eq_refl).
    destruct (Hk a s1 ltac:(lia)) as [Hf' Hl'].
    split; [exact Hf'|].
    intros b s' E'. specialize (Hl' b s' E'). lia.
  - split; discriminate.
  - split; [|discriminate].
    intros E'. apply Hf. injection E' as ->. reflexivity.
Qed.

Lemma bounded_stream_read n k : bounded n (stream.read k).
Proof.
  intros s _. unfold stream.read.
  destruct (k <=? length s)%nat; split; try discriminate.
  intros a s' E. injection E as _ <-. rewrite length_skipn. lia.
Qed.

Lemma bounded_read_trivial n k : bounded n (stream.read_trivial k).
Proof.
  apply bounded_bind; [apply bounded_stream_read|].
  intros; apply bounded_ret.
Qed.

Lemma bounded_read_string n old : bounded n (stream.read_string old).
Proof.
  apply bounded_bind; [apply bounded_read_trivial|].
  intros size. destruct (0 <? size);
    [apply bounded_stream_read | apply bounded_ret].
Qed.

Lemma bounded_read_new_string n : bounded n stream.read_new_string.
Proof. apply bounded_read_string. Qed.

Lemma bounded_read_items {A} n (item : M A) size :
  bounded n item -> bounded n (read_items size item).
Proof.
  intros Hi. induction size as [|size IH]; cbn [read_items].
  - apply bounded_ret.
  - apply bounded_bind; [exact Hi|]. intros v.
    apply bounded_bind; [exact IH|]. intros; apply bounded_ret.
Qed.

Create HintDb bounded.

#[local] Hint Resolve bounded_ret bounded_stream_read bounded_read_trivial
  bounded_read_string bounded_read_new_string bounded_read_items : bounded.

Ltac bounded_steps :=
  repeat first
    [ solve [auto with bounded]
    | apply bounded_read_items
    | apply bounded_bind; [|intros ?] ].

Lemma bounded_read_values n rec values :
  bounded n rec -> bounded n (read_values rec values).
Proof. intros Hr. unfold read_values, read_size_t. bounded_steps. Qed.

Lemma bounded_read n rec a : bounded n rec -> bounded n (read rec a).
Proof.
  intros Hr. pose proof (bounded_read_values n rec) as Hvs.
  unfold read. apply bounded_bind; [auto with bounded|]. intros name.
  destruct a; cbn [set_name read_value]; unfold read_size_t;
    bounded_steps; auto.
Qed.

Lemma bounded_array_constructor n : bounded n array_constructor.
Proof.
  unfold array_constructor, read_tag. bounded_steps.
  repeat match goal with
         | |- bounded _ (if ?c then _ else _) => destruct c
         end; auto with bounded.
Qed.

Lemma bounded_constructor n (type : byte) (ctor : constructor) :
  factory_lookup type = Some ctor -> bounded n ctor.
Proof.
  unfold factory_lookup.
  destruct (e_argument_type.of_byte type) as [t|]; [|discriminate].
  destruct t; cbn; intros E; try discriminate; injection E as <-;
    auto using bounded_array_constructor with bounded.
Qed.

(** After the tag byte the stream is one shorter, and that is all the
    recursive calls ever see. *)
Lemma bounded_serialize_body n rec :
  bounded n rec -> bounded (S n) (serialize_body rec).
Proof.
  intros Hr s Hs. unfold serialize_body, bind at 1, read_tag, bind at 1.
  unfold stream.read.
  destruct s as [|b s]; cbn; [split; discriminate|].
  assert (Hk : bounded n
            match factory_lookup b with
            | Some ctor =>
                new_argument <- ctor ;;
                match new_argument with
                | Some a => read rec a
                | None => raise null_argument
                end
            | None => raise bad_function_call
            end).
  { destruct (factory_lookup b) as [ctor|] eqn:E.
    - apply bounded_bind; [eapply bounded_constructor, E|].
      intros [a|]; [now apply bounded_read | now apply bounded_raise].
    - now apply bounded_raise. }
  cbn in Hs. destruct (Hk s ltac:(lia)) as [Hf Hl].
  split; [exact Hf|].
  intros a s' E. specialize (Hl a s' E). lia.
Qed.

Lemma bounded_serialize_fuel n : bounded n (serialize_fuel (S n)).
Proof.
  induction n as [|n IH].
  - intros [|b s] Hs; [|cbn in Hs; lia].
    cbn. split; discriminate.
  - change (serialize_fuel (S (S n)))
      with (serialize_body (serialize_fuel (S n))).
    now apply bounded_serialize_body.
Qed.

(** [serialize] is total: the fuel it gives itself is enough on every
    stream. *)
Lemma serialize_fuel_enough (s : mock_stream) :
  serialize s <> Fault out_of_fuel.
Proof.
  unfold serialize. now apply (bounded_serialize_fuel (length s) s).
Qed.

(** ** Scalars across the wire *)

(** C1 (as amended): for every scalar argument (int32, uint64, float64,
    string) whose payload is a value of its C++ type and whose name and, for
    the string variant, payload are at most 65535 bytes long, [write] on an
    empty stream followed by [serialize] returns that argument: the same
    variant, the same payload and the same name, with nothing left on the
    stream. *)
Theorem scalar_round_trip (a : argument) :
  is_scalar a = true ->
  well_typed a = true ->
  transmissible a = true ->
  serialize (write a []) = Ok (a, []).
Proof.
  intros _ Hwt Htr. rewrite <- (app_nil_r (write a [])).
  now apply serialize_write.
Qed.

Lemma scalar_round_trip_witness :
  (is_scalar (int32 name_Base 555) = true
   /\ well_typed (int32 name_Base 555) = true
   /\ transmissible (int32 name_Base 555) = true)
  /\ serialize (write (int32 name_Base 555) [])
     = Ok (int32 name_Base 555, []).
Proof.
  split; [repeat split | apply scalar_round_trip; reflexivity].
Defined.

(** C1 fails as stated: an int32 whose name is 65536 bytes long is written
    with the size 0 in front of the name, and is decoded with the empty
    name. *)
Lemma scalar_long_name_counterexample :
  is_scalar (int32 long_string 555) = true
  /\ well_typed (int32 long_string 555) = true
  /\ option_map get_name
       (returned (serialize (write (int32 long_string 555) []))) = Some []
  /\ get_name (int32 long_string 555) <> [].
Proof.
  split; [reflexivity|]. split; [reflexivity|]. split.
  - vm_compute. reflexivity.
  - intros H. apply (f_equal (@length byte)) in H.
    cbn [get_name] in H. unfold long_string in H.
    rewrite repeat_length in H. discriminate H.
Qed.

(** ** Tags without a registry entry *)

Lemma serialize_cons (type : byte) (rest : mock_stream) :
  serialize (type :: rest) =
  match factory_lookup type with
  | None => Fault bad_function_call
  | Some ctor =>
      (new_argument <- ctor ;;
       match new_argument with
       | None => raise null_argument
       | Some a => read (serialize_fuel (S (length rest))) a
       end) rest
  end.
Proof.
  unfold serialize. cbn [length serialize_fuel].
  unfold serialize_body, bind at 1, read_tag, bind at 1.
  cbn. destruct (factory_lookup type); reflexivity.
Qed.

(** C2 (as amended): decoding a stream whose leading tag has no entry in
    the registry constructs nothing and reads nothing more; the lookup
    yields an empty [std::function], and calling it raises
    [std::bad_function_call].  No [UnknownTypeTag] error exists. *)
Theorem unregistered_tag_bad_function_call (type : byte) (rest : mock_stream) :
  factory_lookup type = None ->
  serialize (type :: rest) = Fault bad_function_call.
Proof.
  intros H. rewrite serialize_cons, H. reflexivity.
Qed.

Lemma unregistered_tag_bad_function_call_witness :
  factory_lookup xff = None
  /\ serialize [xff; x00; x00] = Fault bad_function_call.
Proof.
  split; [reflexivity|].
  apply unregistered_tag_bad_function_call. reflexivity.
Defined.

(** C2 fails as stated: the tag byte 9 is in no registry entry, and decoding
    it ends in [bad_function_call], not in [UnknownTypeTag]. *)
Lemma unregistered_tag_counterexample :
  factory_lookup x09 = None
  /\ serialize [x09; x00; x00] = Fault bad_function_call
  /\ serialize [x09; x00; x00] <> Error UnknownTypeTag.
Proof.
  repeat split; discriminate.
Qed.

(** ** Typed access *)








(** ** Fields of a struct *)

Lemma string_eqb_eq (x y : std_string) : string_eqb x y = true <-> x = y.
Proof.
  revert y. induction x as [|a x IH]; intros [|b y]; cbn;
    try (split; [discriminate | discriminate]); [tauto|].
  rewrite andb_true_iff, IH. split.
  - intros [Hab ->]. apply Byte.byte_dec_bl in Hab. now subst.
  - intros E. injection E as -> ->. split; [|reflexivity].
    now apply Byte.byte_dec_lb.
Qed.

Lemma string_eqb_neq (x y : std_string) : x <> y -> string_eqb x y = false.
Proof.
  intros H. destruct (string_eqb x y) eqn:E; [|reflexivity].
  apply string_eqb_eq in E. contradiction.
Qed.

Lemma field_scan_none (name : std_string) (values : list argument) :
  (forall c, In c values -> get_name c <> name) ->
  field_scan name values = None.
Proof.
  induction values as [|c values IH]; intros H; [reflexivity|].
  cbn [field_scan]. rewrite string_eqb_neq by (apply H; now left).
  apply IH. intros c' Hc'. apply H. now right.
Qed.

Lemma field_scan_first (name : std_string) (pre post : list argument) c :
  (forall c', In c' pre -> get_name c' <> name) ->
  get_name c = name ->
  field_scan name (pre ++ c :: post) = Some c.
Proof.
  induction pre as [|p pre IH]; intros H Hc; cbn [app field_scan].
  - now rewrite (proj2 (string_eqb_eq _ _) Hc).
  - rewrite string_eqb_neq by (apply H; now left).
    apply IH; [|exact Hc]. intros c' Hc'. apply H. now right.
Qed.

(** C4 (as amended): when no child has the name, [field<T>(name)] calls
    [as<T>] through the null pointer its scan is left with; no
    [FieldNotFound] error is raised.  When some child has the name, the
    result is [as<T>] of the first such child in insertion order. *)
Theorem field_first_match :
  (forall T name values,
      (forall c, In c values -> get_name c <> name) ->
      field T name values = Fault null_dereference)
  /\ (forall T name pre c post,
        (forall c', In c' pre -> get_name c' <> name) ->
        get_name c = name ->
        field T name (pre ++ c :: post) = as_ T c).
Proof.
  split.
  - intros T name values H. unfold field. now rewrite field_scan_none.
  - intros T name pre c post H Hc. unfold field.
    now rewrite (field_scan_first name pre post c H Hc).
Qed.

Lemma field_first_match_witness :
  field int32_t name_x [int32 name_a 1; int32 name_b 2]
  = Fault null_dereference
  /\ field int32_t name_b ([int32 name_a 1] ++ int32 name_b 2 :: [int32 name_b 3])
     = Ok (val_int32 2).
Proof.
  split.
  - apply (proj1 field_first_match).
    intros c [<-|[<-|[]]]; discriminate.
  - apply (proj2 field_first_match int32_t name_b [int32 name_a 1]
             (int32 name_b 2) [int32 name_b 3]).
    + intros c [<-|[]]; discriminate.
    + reflexivity.
Defined.

(** C4 fails as stated: a lookup of a name no child has does not end in
    [FieldNotFound]. *)
Lemma field_missing_counterexample :
  field_scan name_x [int32 name_a 1; int32 name_b 2] = None
  /\ field int32_t name_x [int32 name_a 1; int32 name_b 2]
     = Fault null_dereference
  /\ field int32_t name_x [int32 name_a 1; int32 name_b 2]
     <> Error FieldNotFound.
Proof.
  repeat split; discriminate.
Qed.

(** ** release: what std::remove_if followed by erase(it) does *)

Section RemoveIf.

Context {A : Type} (p : A -> bool).

Lemma assign_middle (l1 l2 : list A) (x y : A) :
  assign (length l1) x (l1 ++ y :: l2) = l1 ++ x :: l2.
Proof.
  induction l1 as [|z l1 IH]; cbn [length app assign]; [reflexivity|].
  now rewrite IH.
Qed.

Lemma firstn_succ_nth_error (l : list A) (i : nat) (x : A) :
  nth_error l i = Some x -> firstn (S i) l = firstn i l ++ [x].
Proof.
  revert i. induction l as [|y l IH]; intros [|i] H; try discriminate H.
  - cbn in H. injection H as ->. reflexivity.
  - cbn [firstn app]. f_equal. now apply IH.
Qed.

Lemma skipn_nth_error (l : list A) (i : nat) (x : A) :
  nth_error l i = Some x -> skipn i l = x :: skipn (S i) l.
Proof.
  revert i. induction l as [|y l IH]; intros [|i] H; try discriminate H.
  - cbn in H. injection H as ->. reflexivity.
  - cbn [skipn]. now apply IH.
Qed.

Lemma kept_length_le (l : list A) : (length (kept p l) <= length l)%nat.
Proof. apply filter_length_le. Qed.

(** The state of the loop when it is about to look at index [i]: the kept
    elements among the first [i], then the vector's own elements from the
    write position on. *)
Lemma remove_if_loop_spec (v : list A) :
  forall todo i,
    (i + todo = length v)%nat ->
    remove_if_loop p todo i (length (kept p (firstn i v)))
      (kept p (firstn i v) ++ skipn (length (kept p (firstn i v))) v)
    = (kept p v ++ skipn (length (kept p v)) v, length (kept p v)).
Proof.
  induction todo as [|todo IH]; intros i Hi.
  - cbn [remove_if_loop]. replace i with (length v) by lia.
    now rewrite firstn_all.
  - cbn [remove_if_loop].
    assert (Hk : (length (kept p (firstn i v)) <= i)%nat).
    { pose proof (kept_length_le (firstn i v)) as H.
      rewrite length_firstn in H. lia. }
    destruct (nth_error v i) as [x|] eqn:Ex;
      [|apply nth_error_None in Ex; lia].
    assert (Ev : nth_error (kept p (firstn i v)
                            ++ skipn (length (kept p (firstn i v))) v) i
                 = Some x).
    { rewrite nth_error_app2 by lia. rewrite nth_error_skipn.
      now replace (length (kept p (firstn i v))
                   + (i - length (kept p (firstn i v))))%nat with i by lia. }
    rewrite Ev.
    pose proof (firstn_succ_nth_error v i x Ex) as Hf.
    specialize (IH (S i) ltac:(lia)). rewrite Hf in IH.
    unfold kept in IH. rewrite filter_app in IH. cbn [filter] in IH.
    fold (kept p (firstn i v)) in IH.
    destruct (p x); cbn [negb] in IH.
    + rewrite app_nil_r in IH. exact IH.
    + rewrite length_app, Nat.add_1_r in IH. rewrite <- app_assoc in IH.
      cbn [app] in IH. etransitivity; [|exact IH]. f_equal.
      destruct (nth_error v (length (kept p (firstn i v)))) as [y|] eqn:Ey;
        [|apply nth_error_None in Ey; lia].
      rewrite (skipn_nth_error v _ y Ey). apply assign_middle.
Qed.

Lemma find_if_le (v : list A) : (find_if p v <= length v)%nat.
Proof.
  induction v as [|x v IH]; cbn; [lia|]. destruct (p x); lia.
Qed.

Lemma kept_before_find_if (v : list A) :
  kept p (firstn (find_if p v) v) = firstn (find_if p v) v.
Proof.
  induction v as [|x v IH]; [reflexivity|].
  cbn [find_if]. destruct (p x) eqn:E; [reflexivity|].
  cbn [firstn]. unfold kept. cbn [filter]. rewrite E. cbn [negb].
  f_equal. exact IH.
Qed.

Lemma nth_error_find_if (v : list A) :
  (find_if p v < length v)%nat ->
  exists x, nth_error v (find_if p v) = Some x /\ p x = true.
Proof.
  induction v as [|x v IH]; cbn [find_if length]; [lia|].
  destruct (p x) eqn:E; intros H.
  - exists x. now split.
  - cbn [nth_error]. apply IH. lia.
Qed.

(** [remove_if] leaves the kept elements in front, in order, followed by
    whatever the vector held from that position on, and returns the number
    of kept elements. *)
Lemma remove_if_spec (v : list A) :
  remove_if p v = (kept p v ++ skipn (length (kept p v)) v, length (kept p v)).
Proof.
  unfold remove_if. pose proof (find_if_le v) as Hle.
  pose proof (kept_before_find_if v) as Hb.
  destruct (Nat.eqb_spec (find_if p v) (length v)) as [E|E].
  - rewrite E, firstn_all in Hb. rewrite Hb, skipn_all, app_nil_r.
    now rewrite E.
  - destruct (nth_error_find_if v ltac:(lia)) as [x [Ex Hx]].
    pose proof (remove_if_loop_spec v (length v - S (find_if p v))
                  (S (find_if p v)) ltac:(lia)) as H.
    rewrite (firstn_succ_nth_error v _ x Ex) in H.
    unfold kept in H at 1 2 3. rewrite filter_app in H. cbn [filter] in H.
    rewrite Hx in H. cbn [negb] in H. rewrite app_nil_r in H.
    fold (kept p (firstn (find_if p v) v)) in H. rewrite Hb in H.
    rewrite length_firstn, Nat.min_l, firstn_skipn in H by lia.
    exact H.
Qed.

End RemoveIf.

Lemma filter_same_length {A} (f : A -> bool) (l : list A) :
  length (filter f l) = length l -> filter f l = l.
Proof.
  induction l as [|x l IH]; [reflexivity|].
  cbn [filter]. pose proof (filter_length_le f l) as Hle.
  destruct (f x); cbn [length]; intros H; [|lia].
  f_equal. apply IH. lia.
Qed.

(** [release] returns the child at the index that equals the number of
    children with another name, and keeps the children with another name
    followed by the children after that index. *)
Lemma release_spec (name : std_string) (values : list argument) :
  let other := kept (fun arg => string_eqb (get_name arg) name) values in
  release name values =
  if (length other =? length values)%nat then (None, values)
  else (nth_error values (length other),
        other ++ skipn (S (length other)) values).
Proof.
  intros other. unfold release. rewrite remove_if_spec. fold other.
  assert (Hle : (length other <= length values)%nat)
    by apply filter_length_le.
  rewrite length_app, length_skipn.
  replace (length other + (length values - length other))%nat
    with (length values) by lia.
  destruct (Nat.eqb_spec (length other) (length values)) as [E|E]; cbn [negb].
  - rewrite E, skipn_all, app_nil_r.
    f_equal. exact (filter_same_length _ values E).
  - f_equal.
    + rewrite nth_error_app2 by lia. rewrite Nat.sub_diag.
      rewrite nth_error_skipn. now rewrite Nat.add_0_r.
    + unfold erase. rewrite firstn_app, Nat.sub_diag, firstn_all.
      cbn [firstn]. rewrite app_nil_r.
      rewrite skipn_app.
      rewrite (skipn_all2 other) by lia.
      replace (S (length other) - length other)%nat with 1%nat by lia.
      cbn [app]. now rewrite skipn_skipn.
Qed.

(** The half of C5 that holds: with no child of that name, [release]
    returns [nullptr] and the children are untouched. *)
Lemma release_not_found (name : std_string) (values : list argument) :
  (forall c, In c values -> get_name c <> name) ->
  release name values = (None, values).
Proof.
  intros H. pose proof (release_spec name values) as R. cbn zeta in R.
  rewrite R.
  assert (E : kept (fun arg => string_eqb (get_name arg) name) values
              = values).
  { clear R. unfold kept.
    induction values as [|c values IH]; [reflexivity|].
    cbn [filter]. rewrite string_eqb_neq by (apply H; now left).
    cbn [negb]. f_equal. apply IH. intros c' Hc'. apply H. now right. }
  rewrite E, Nat.eqb_refl. reflexivity.
Qed.

(** C5, evaluated where it fails: releasing "x" from the children
    [x = 1; y = 2] returns the child named "y", which also stays in the
    struct, and the child named "x" is neither returned nor kept. *)
Theorem release_returns_another_child :
  release name_x [int32 name_x 1; int32 name_y 2]
  = (Some (int32 name_y 2), [int32 name_y 2]).
Proof. reflexivity. Qed.

(** ** Arrays across the wire *)

Lemma write_array_layout (a : argument) (sub_type : tag) (s : mock_stream) :
  array_value_type a = Some sub_type ->
  write a s =
  s ++ e_argument_type.to_byte e_argument_type.array
       :: e_argument_type.to_byte sub_type
       :: stream.write_string (get_name a) [] ++ write_value a [].
Proof.
  intros H. unfold array_value_type in H.
  destruct (array_element a) as [e|] eqn:He; [|discriminate H].
  cbn [option_map] in H. injection H as <-.
  rewrite write_app, write_unfold, write_value_app.
  now rewrite (write_head_array a e He).
Qed.

(** The array entry takes one byte off the stream, whatever follows. *)
Lemma array_constructor_one_byte (sub : byte) :
  exists p, forall rest, array_constructor (sub :: rest) = Ok (p, rest).
Proof.
  assert (Ht : forall rest, read_tag (sub :: rest) = Ok (sub, rest))
    by reflexivity.
  exists (let sub_is x := Z_of_byte sub =? e_argument_type.ordinal x in
          if sub_is e_argument_type.int32 then Some (array_int32 [] [])
          else if sub_is e_argument_type.float64 then Some (array_float64 [] [])
          else if sub_is e_argument_type.string then Some (array_string [] [])
          else if sub_is e_argument_type.uint64 then Some (array_uint64 [] [])
          else if sub_is e_argument_type.struct_value
               then Some (array_struct [] [])
          else None).
  intros rest. unfold array_constructor, bind. rewrite Ht. cbv beta zeta.
  repeat match goal with
         | |- context [if ?c then _ else _] => destruct c
         end; reflexivity.
Qed.


Lemma write_value_array_struct_flat name val :
  write_value (array_struct name val) [] =
  write_size_t (vsize val) []
    ++ flat_map (fun e => write_values (snd e) []) val.
Proof.
  rewrite write_value_array_struct.
  rewrite (for_each_app (fun v => write_values (snd v))).
  - reflexivity.
  - intros v _ s. apply write_values_app.
    apply Forall_forall. intros c _. apply write_value_app.
Qed.

Lemma scalar_array_payload {A} (w : A -> mock_stream -> mock_stream)
    (val : list A) :
  (forall v s, w v s = s ++ w v []) ->
  for_each w val (write_size_t (vsize val) []) =
  stream.write_trivial 8 (vsize val mod 2 ^ 64) []
    ++ flat_map (fun v => w v []) val.
Proof.
  intros H. rewrite (for_each_app w val) by (intros; apply H). reflexivity.
Qed.

(** C6, evaluated where it fails, which is on every array of structs: the
    array tag comes first and one byte follows it before the name, but that
    byte is the tag [count], not a tag of the element type; the name, the
    element count and each element's field list follow.  Reading that byte,
    the registry's array entry allocates no array at all, while the byte
    [struct_value], which it was meant to find there, selects the array of
    structs. *)
Theorem struct_array_tag_selects_no_class (name : std_string)
    (val : list (std_string * list argument)) (s : mock_stream) :
  write (array_struct name val) s =
  s ++ e_argument_type.to_byte e_argument_type.array
       :: e_argument_type.to_byte e_argument_type.count
       :: stream.write_string name []
          ++ stream.write_trivial 8 (vsize val mod 2 ^ 64) []
          ++ flat_map
               (fun e =>
                  stream.write_trivial 8 (vsize (snd e) mod 2 ^ 64) []
                    ++ flat_map (fun v => write v []) (snd e)) val
  /\ array_constructor [e_argument_type.to_byte e_argument_type.count]
     = Ok (None, [])
  /\ array_constructor [e_argument_type.to_byte e_argument_type.struct_value]
     = Ok (Some (array_struct [] []), []).
Proof.
  split; [|split; reflexivity].
  rewrite (write_array_layout (array_struct name val) e_argument_type.count s)
    by reflexivity.
  rewrite write_value_array_struct_flat. cbn [get_name].
  rewrite (flat_map_ext _
             (fun e => stream.write_trivial 8 (vsize (snd e) mod 2 ^ 64) []
                         ++ flat_map (fun v => write v []) (snd e)))
    by (intros e; apply write_values_flat).
  reflexivity.
Qed.

(** C7 (as amended): for the element types int32, uint64, float64 and
    string, an array whose elements are values of the element type, and
    whose name and string elements are at most 65535 bytes long, is decoded
    from its encoding as the same array: as many elements, equal one by one
    in the same order, and the same name.  Arrays of structs are not
    covered. *)
Theorem scalar_array_round_trip (a : argument) :
  is_scalar_array a = true ->
  well_typed a = true ->
  transmissible a = true ->
  serialize (write a []) = Ok (a, []).
Proof.
  intros _ Hwt Htr. rewrite <- (app_nil_r (write a [])).
  now apply serialize_write.
Qed.

Lemma scalar_array_round_trip_witness :
  (is_scalar_array (array_int32 name_arr_arg [13; 14; 88]) = true
   /\ well_typed (array_int32 name_arr_arg [13; 14; 88]) = true
   /\ transmissible (array_int32 name_arr_arg [13; 14; 88]) = true)
  /\ serialize (write (array_int32 name_arr_arg [13; 14; 88]) [])
     = Ok (array_int32 name_arr_arg [13; 14; 88], []).
Proof.
  split; [repeat split | apply scalar_array_round_trip; reflexivity].
Defined.

(** C7 fails as stated: an array holding one string of 65536 bytes is
    decoded as an array holding one empty string. *)
Lemma array_long_string_counterexample :
  is_scalar_array (array_string name_arr_arg [long_string]) = true
  /\ well_typed (array_string name_arr_arg [long_string]) = true
  /\ option_map get_value_internal
       (returned (serialize (write (array_string name_arr_arg [long_string]) [])))
     = Some (val_vector_string [[]])
  /\ long_string <> [].
Proof.
  split; [reflexivity|]. split; [reflexivity|]. split.
  - vm_compute. reflexivity.
  - intros H. apply (f_equal (@length byte)) in H.
    unfold long_string in H. rewrite repeat_length in H. discriminate H.
Qed.

(** C10, evaluated where it fails, which is on every array of structs: the
    element type [argument_struct<TStream>*] passes the static assertion
    and is not trivial, both tested on the pointee, but [get_type] tests the
    pointer; the element tag written is [count], the registry's array entry
    returns [nullptr] for it, and [assert(new_argument)] is what decoding
    ends in. *)
Theorem struct_array_is_not_decoded (name : std_string)
    (val : list (std_string * list argument)) :
  array_static_assert elem_argument_struct_ptr = true
  /\ array_is_trivial elem_argument_struct_ptr = false
  /\ array_value_type (array_struct name val) = Some e_argument_type.count
  /\ serialize (write (array_struct name val) []) = Fault null_argument.
Proof.
  do 3 (split; [reflexivity|]).
  rewrite (write_array_layout (array_struct name val) e_argument_type.count [])
    by reflexivity.
  cbn [app]. rewrite serialize_cons.
  change (factory_lookup (e_argument_type.to_byte e_argument_type.array))
    with (Some array_constructor).
  reflexivity.
Qed.

(** ** The builder *)

Lemma builder_add_all (l : list argument) :
  forall b,
    struct_builder.values
      (fold_left (fun b' a => struct_builder.add_new a b') l b)
    = struct_builder.values b ++ l.
Proof.
  induction l as [|a l IH]; intros b; cbn [fold_left].
  - now rewrite app_nil_r.
  - rewrite IH. cbn [struct_builder.add_new struct_builder.values].
    now rewrite <- app_assoc.
Qed.

(** C8: [get(name)] on a builder holding any pending children returns the
    struct of that name holding exactly those children, in order; the
    builder is left with none, so its destructor's assertion holds and it
    can be added to again.  In particular a builder filled from [create()]
    by [add] hands over what was added, in the order of the calls. *)
Theorem builder_get_hands_over (b : struct_builder.t) (name : std_string) :
  fst (struct_builder.get name b)
  = argument_struct name (struct_builder.values b)
  /\ struct_builder.values (snd (struct_builder.get name b)) = []
  /\ struct_builder.destroy (snd (struct_builder.get name b)) = Ok tt
  /\ (forall a,
        struct_builder.values
          (struct_builder.add_new a (snd (struct_builder.get name b)))
        = [a])
  /\ (forall children,
        fst (struct_builder.get name
               (fold_left (fun b' a => struct_builder.add_new a b')
                  children struct_builder.create))
        = argument_struct name children).
Proof.
  do 4 (split; [reflexivity|]).
  intros children. unfold struct_builder.get, struct_builder.move_vector.
  cbn [fst]. now rewrite builder_add_all.
Qed.

(** ** The tag [file] *)

(** C9: [file] sits at ordinal 6 between [struct_value] (5) and [blob]
    (7); no class carries it as its type and the registry has no entry for
    it; a blob is written with the tag byte 7; and decoding a stream that
    starts with the byte 6 takes the path of a missing registry entry. *)
Theorem file_tag_has_no_entry :
  e_argument_type.ordinal e_argument_type.struct_value = 5
  /\ e_argument_type.ordinal e_argument_type.file = 6
  /\ e_argument_type.ordinal e_argument_type.blob = 7
  /\ (forall a, e_argument_type.eqb (get_type a) e_argument_type.file = false)
  /\ (forall e, e_argument_type.eqb (array_get_type e) e_argument_type.file
                = false)
  /\ factory_find e_argument_type.file factory_impl = None
  /\ factory_lookup x06 = None
  /\ (forall name m_blob s,
        write (argument_blob name m_blob) s
        = s ++ x07 :: stream.write_string name []
               ++ write_value (argument_blob name m_blob) [])
  /\ (forall rest, serialize (x06 :: rest) = Fault bad_function_call).
Proof.
  do 3 (split; [reflexivity|]).
  split; [intros a; destruct a; reflexivity|].
  split; [intros e; destruct e; reflexivity|].
  do 2 (split; [reflexivity|]).
  split.
  - intros name m_blob s.
    rewrite write_app, write_unfold, write_value_app.
    now rewrite write_head_plain by reflexivity.
  - intros rest. now rewrite serialize_cons.
Qed.

(** ** What the decoder does with the elements of a struct array

    The stream below is the one [write] would produce for an array of
    structs if its element tag were [struct_value], the only tag for which
    the registry's array entry allocates a struct array. *)

Lemma reads_read_items_map {A B} (item : M B) (enc : A -> list byte)
    (g : A -> B) (l : list A) :
  (forall v, In v l -> reads item (enc v) (g v)) ->
  reads (read_items (length l) item) (flat_map enc l) (map g l).
Proof.
  induction l as [|x l IH]; intros H.
  - apply reads_ret.
  - cbn [length read_items flat_map map].
    eapply reads_bind; [apply H; now left|].
    apply reads_bind_ret. apply IH. intros v Hv. apply H. now right.
Qed.

Lemma reads_struct_array_payload (rec : M argument) name val :
  in_size_t val = true ->
  (forall e, In e val ->
     in_size_t (snd e) = true
     /\ forall v, In v (snd e) -> reads rec (write v []) v) ->
  reads (read_value rec (array_struct name []))
        (write_value (array_struct name val) [])
        (array_struct name (map (fun e => ([], snd e)) val)).
Proof.
  intros Hsize Hel. rewrite write_value_array_struct_flat.
  cbn [read_value].
  eapply reads_bind; [apply reads_read_size_t, Hsize|].
  unfold vsize. rewrite Nat2Z.id.
  apply (reads_bind_ret _ (fun vs => array_struct name ([] ++ vs))).
  apply (reads_read_items_map _ (fun e => write_values (snd e) [])
           (fun e => ([], snd e))).
  intros e He. destruct (Hel e He) as [Hs Hc].
  apply (reads_bind_ret (read_values rec []) (fun values => ([], values))).
  now apply reads_read_values.
Qed.

(** Decoded by the class the tag [struct_value] selects, every element
    comes back with its children and with the empty name: the element's
    [write_value] put no name on the stream and its [read_value] reads
    none. *)
Lemma struct_array_elements_lose_names name val rest :
  short name = true ->
  in_size_t val = true ->
  forallb (fun e => in_size_t (snd e)
                    && forallb (fun v => well_typed v && transmissible v)
                         (snd e)) val = true ->
  serialize
    (e_argument_type.to_byte e_argument_type.array
       :: e_argument_type.to_byte e_argument_type.struct_value
       :: (stream.write_string name []
             ++ write_value (array_struct name val) []) ++ rest)
  = Ok (array_struct name (map (fun e => ([], snd e)) val), rest).
Proof.
  intros Hname Hsize Hel. unfold serialize.
  set (input := e_argument_type.to_byte e_argument_type.array :: _).
  cbn [serialize_fuel].
  assert (Hr : reads (serialize_body (serialize_fuel (length input)))
                 (e_argument_type.to_byte e_argument_type.array
                    :: e_argument_type.to_byte e_argument_type.struct_value
                    :: stream.write_string name []
                       ++ write_value (array_struct name val) [])
                 (array_struct name (map (fun e => ([], snd e)) val))).
  { apply (reads_serialize_body_array _ e_argument_type.struct_value
             (array_struct [] [])).
    - intros s. reflexivity.
    - apply reads_read; [reflexivity | exact Hname |].
      apply reads_struct_array_payload; [exact Hsize|].
      intros e He. pose proof (In_forallb _ _ _ Hel He) as H.
      cbn beta in H. apply andb_true_iff in H. destruct H as [Hs Hc].
      split; [exact Hs|]. intros v Hv.
      pose proof (In_forallb _ _ _ Hc Hv) as H. cbn beta in H.
      apply andb_true_iff in H. destruct H as [Hwt Htr].
      apply reads_serialize_fuel; [exact Hwt | exact Htr |].
      subst input. cbn [length]. rewrite !length_app.
      rewrite write_value_array_struct_flat, length_app.
      pose proof (length_flat_map_In (fun e => write_values (snd e) [])
                    val e He) as H1.
      cbn beta in H1. rewrite write_values_flat, length_app in H1.
      pose proof (length_flat_map_In (fun v => write v []) (snd e) v Hv) as H2.
      cbn beta in H2. lia. }
  exact (Hr rest).
Qed.

(** ** Further properties *)

(** X1: round trip of a whole tree: a struct whose descendants are scalars,
    blobs, scalar arrays and structs, each a value of its C++ type with
    short names and strings, is decoded from its encoding as the same tree,
    children in insertion order. *)
Theorem nested_round_trip (a : argument) :
  well_typed a = true ->
  transmissible a = true ->
  serialize (write a []) = Ok (a, []).
Proof.
  intros Hwt Htr. rewrite <- (app_nil_r (write a [])).
  now apply serialize_write.
Qed.

Lemma nested_round_trip_witness :
  (well_typed scenario_root = true /\ transmissible scenario_root = true)
  /\ serialize (write scenario_root []) = Ok (scenario_root, [])
  /\ field int32_t name_a (match scenario_root with
                           | argument_struct _ values => values
                           | _ => []
                           end) = Ok (val_int32 1).
Proof.
  split; [split; reflexivity|].
  split; [apply nested_round_trip; reflexivity | reflexivity].
Defined.

(** X2: what [release(name)] does on every struct: with [k] the number of
    children of another name, it returns [nullptr] and changes nothing when
    [k] is the number of children; otherwise it returns the child at index
    [k] and leaves the children of another name followed by the children
    after index [k]. *)
Theorem release_result (name : std_string) (values : list argument) :
  release name values =
  let other := kept (fun arg => string_eqb (get_name arg) name) values in
  if (length other =? length values)%nat then (None, values)
  else (nth_error values (length other),
        other ++ skipn (S (length other)) values).
Proof. exact (release_spec name values). Qed.

(** X3: releasing a name no child has returns [nullptr] and leaves the
    children as they were. *)
Theorem release_missing_name (name : std_string) (values : list argument) :
  field_scan name values = None ->
  release name values = (None, values).
Proof.
  intros H. apply release_not_found.
  induction values as [|c values IH]; intros c' Hc'; [destruct Hc'|].
  cbn [field_scan] in H.
  destruct (string_eqb (get_name c) name) eqn:E; [discriminate H|].
  destruct Hc' as [<-|Hc'].
  - intros Heq. apply string_eqb_eq in Heq. congruence.
  - now apply IH.
Qed.

Lemma release_missing_name_witness :
  field_scan name_x [int32 name_a 1; int32 name_b 2] = None
  /\ release name_x [int32 name_a 1; int32 name_b 2]
     = (None, [int32 name_a 1; int32 name_b 2]).
Proof.
  split; [reflexivity | apply release_missing_name; reflexivity].
Defined.

(** X4: a stream carrying an array of structs under the element tag
    [struct_value] is decoded into the elements' children under empty
    element names. *)
Theorem struct_array_decoded_without_names name val :
  short name = true ->
  in_size_t val = true ->
  forallb (fun e => in_size_t (snd e)
                    && forallb (fun v => well_typed v && transmissible v)
                         (snd e)) val = true ->
  serialize
    (e_argument_type.to_byte e_argument_type.array
       :: e_argument_type.to_byte e_argument_type.struct_value
       :: (stream.write_string name []
             ++ write_value (array_struct name val) []) ++ [])
  = Ok (array_struct name (map (fun e => ([], snd e)) val), []).
Proof. apply struct_array_elements_lose_names. Qed.

Lemma struct_array_decoded_without_names_witness :
  serialize
    (e_argument_type.to_byte e_argument_type.array
       :: e_argument_type.to_byte e_argument_type.struct_value
       :: (stream.write_string name_arr_arg []
             ++ write_value
                  (array_struct name_arr_arg [(name_x, [int32 name_a 1])]) [])
          ++ [])
  = Ok (array_struct name_arr_arg [([], [int32 name_a 1])], []).
Proof.
  apply (struct_array_decoded_without_names name_arr_arg
           [(name_x, [int32 name_a 1])]); reflexivity.
Defined.

(** ** The stream's strings, whatever their length *)

Lemma stream_read_enough (n : nat) (bs rest : list byte) :
  (n <= length bs)%nat ->
  stream.read n (bs ++ rest) = Ok (firstn n bs, skipn n bs ++ rest).
Proof.
  intros H. unfold stream.read. rewrite length_app.
  destruct (Nat.leb_spec n (length bs + length rest)) as [_|Hlt]; [|lia].
  rewrite firstn_app, skipn_app.
  replace (n - length bs)%nat with 0%nat by lia.
  cbn [firstn skipn]. now rewrite app_nil_r.
Qed.

(** X5: what [read<std::string>(val)] gets after [write<std::string>], for a
    string of any length: the size that arrives is the string's size modulo
    65536; when it is positive, [val] becomes that many leading bytes of the
    string and the remaining bytes of the string stay on the stream; when it
    is zero, [val] keeps what it held and the whole string stays on the
    stream. *)
Theorem read_string_after_write_string (old val : std_string)
    (rest : mock_stream) :
  stream.read_string old (stream.write_string val [] ++ rest) =
  let size := vsize val mod 2 ^ 16 in
  if 0 <? size
  then Ok (firstn (Z.to_nat size) val, skipn (Z.to_nat size) val ++ rest)
  else Ok (old, val ++ rest).
Proof.
  cbv zeta.
  assert (Hsize : 0 <= vsize val mod 2 ^ 16 < 2 ^ 16)
    by (apply Z.mod_pos_bound; lia).
  assert (Hle : vsize val mod 2 ^ 16 <= vsize val)
    by (apply Z.mod_le; unfold vsize; lia).
  unfold stream.write_string, stream.write_trivial, stream.write, uint16_cast.
  cbn [app]. rewrite <- app_assoc.
  unfold stream.read_string, bind at 1.
  rewrite (reads_read_trivial 2 (vsize val mod 2 ^ 16)) by exact Hsize.
  destruct (0 <? vsize val mod 2 ^ 16); [|reflexivity].
  apply stream_read_enough. unfold vsize in *. lia.
Qed.

(** ** One argument after another *)

(** X6: two arguments written to a stream one after the other are decoded
    one after the other: the first [serialize] returns the first argument
    and leaves exactly the bytes of the second, from which the second
    [serialize] returns the second and leaves nothing. *)
Theorem consecutive_arguments_decode_in_order (a b : argument) :
  well_typed a = true -> transmissible a = true ->
  well_typed b = true -> transmissible b = true ->
  serialize (write b (write a [])) = Ok (a, write b [])
  /\ serialize (write b []) = Ok (b, []).
Proof.
  intros Ha Ha' Hb Hb'. split.
  - rewrite (write_app b (write a [])). now apply serialize_write.
  - rewrite <- (app_nil_r (write b [])). now apply serialize_write.
Qed.

Lemma consecutive_arguments_decode_in_order_witness :
  serialize (write (array_int32 name_arr_arg [13; 14; 88])
               (write (int32 name_Base 555) []))
  = Ok (int32 name_Base 555, write (array_int32 name_arr_arg [13; 14; 88]) [])
  /\ serialize (write (array_int32 name_arr_arg [13; 14; 88]) [])
     = Ok (array_int32 name_arr_arg [13; 14; 88], []).
Proof.
  apply consecutive_arguments_decode_in_order; reflexivity.
Defined.

(** X7: the encoding delimits itself: if the encoding of one argument
    followed by any bytes equals the encoding of another followed by any
    bytes, the arguments are equal and so are the bytes that follow.  In
    particular different arguments have different encodings, and no
    encoding is the beginning of another. *)
Theorem encoding_delimits_itself (a b : argument) (r r' : mock_stream) :
  well_typed a = true -> transmissible a = true ->
  well_typed b = true -> transmissible b = true ->
  write a [] ++ r = write b [] ++ r' ->
  a = b /\ r = r'.
Proof.
  intros Ha Ha' Hb Hb' E.
  pose proof (serialize_write a r Ha Ha') as Da.
  pose proof (serialize_write b r' Hb Hb') as Db.
  rewrite E, Db in Da. injection Da as -> ->. now split.
Qed.

Lemma encoding_delimits_itself_witness :
  int32 name_a 1 = int32 name_a 1 /\ [x07] = [x07].
Proof.
  apply (encoding_delimits_itself (int32 name_a 1) (int32 name_a 1)
           [x07] [x07]); reflexivity.
Defined.

(** X8: [write] only appends: whatever the stream holds stays in front,
    unchanged, and the bytes added depend on the argument alone.  This holds
    for every argument, nested structs and arrays of structs included. *)
Theorem write_only_appends (a : argument) (s : mock_stream) :
  write a s = s ++ write a [].
Proof. apply write_app. Qed.

(** X9: the wire layout of a struct: the tag [struct_value], the name, the
    number of children as a [std::size_t], then every child in insertion
    order, each written in full with its own tag and name. *)
Theorem struct_wire_layout (name : std_string) (values : list argument)
    (s : mock_stream) :
  write (argument_struct name values) s =
  s ++ e_argument_type.to_byte e_argument_type.struct_value
       :: stream.write_string name []
          ++ stream.write_trivial 8 (vsize values mod 2 ^ 64) []
          ++ flat_map (fun v => write v []) values.
Proof.
  rewrite write_app, write_unfold, write_value_app.
  rewrite write_head_plain by reflexivity.
  rewrite write_value_struct, write_values_flat. reflexivity.
Qed.

(** ** What a successful decode says about the stream *)

Lemma byte_of_Z_of_byte (b : byte) : byte_of_Z (Z_of_byte b) = b.
Proof.
  unfold byte_of_Z, Z_of_byte. pose proof (Byte.to_N_bounded b) as Hb.
  rewrite Z.mod_small by lia. rewrite N2Z.id. now rewrite Byte.of_to_N.
Qed.

Lemma of_byte_to_byte (b : byte) (t : tag) :
  e_argument_type.of_byte b = Some t -> b = e_argument_type.to_byte t.
Proof.
  unfold e_argument_type.of_byte. intros H. apply find_some in H.
  destruct H as [_ H]. apply Z.eqb_eq in H.
  unfold e_argument_type.to_byte. rewrite H. symmetry.
  apply byte_of_Z_of_byte.
Qed.

Lemma bind_ok {A B} (m : M A) (k : A -> M B) s r :
  bind m k s = Ok r -> exists x s1, m s = Ok (x, s1) /\ k x s1 = Ok r.
Proof.
  unfold bind. destruct (m s) as [[x s1]|e|f]; try discriminate.
  intros H. now exists x, s1.
Qed.

Ltac invert_binds :=
  repeat match goal with
         | H : bind _ _ _ = Ok _ |- _ =>
             apply bind_ok in H; destruct H as (? & ? & ? & H)
         | H : ret _ _ = Ok _ |- _ =>
             unfold ret in H; injection H as ? ?; subst
         end.

(** [read] fills an instance in; it never turns it into one of another
    class. *)
Lemma read_keeps_class (rec : M argument) (a0 a : argument) s s' :
  read rec a0 s = Ok (a, s') ->
  default_instance a = default_instance a0.
Proof.
  unfold read. intros H. apply bind_ok in H. destruct H as (name & s1 & _ & H).
  destruct a0; cbn [set_name read_value] in H; unfold read_values in H;
    invert_binds; reflexivity.
Qed.

Lemma array_constructor_class (sub : byte) (a0 : argument) s s' :
  array_constructor (sub :: s) = Ok (Some a0, s') ->
  is_array a0 = true /\ default_instance a0 = a0
  /\ array_constructor [sub] = Ok (Some a0, []).
Proof.
  destruct (array_constructor_one_byte sub) as [p Hp].
  rewrite (Hp s), (Hp []). intros H. injection H as -> _.
  specialize (Hp []). revert Hp.
  unfold array_constructor, bind.
  change (read_tag [sub]) with (@Ok (byte * mock_stream) (sub, [])).
  cbv beta iota zeta.
  repeat match goal with
         | |- context [if ?c then _ else _] => destruct c
         end;
    unfold ret; intros H;
    first [discriminate H | injection H as <-; repeat split].
Qed.

Lemma factory_find_cases (t : tag) :
  factory_find t factory_impl =
  match t with
  | e_argument_type.int32 => Some (ret (Some (int32 [] 0)))
  | e_argument_type.uint64 => Some (ret (Some (uint64 [] 0)))
  | e_argument_type.float64 => Some (ret (Some (float64 [] 0)))
  | e_argument_type.string => Some (ret (Some (string [] [])))
  | e_argument_type.array => Some array_constructor
  | e_argument_type.struct_value => Some (ret (Some (argument_struct [] [])))
  | e_argument_type.blob => Some (ret (Some (argument_blob [] [])))
  | e_argument_type.file | e_argument_type.count => None
  end.
Proof. destruct t; reflexivity. Qed.

(** X10: when [serialize] decodes an argument from a stream that holds
    every byte the decode asks for, the byte the stream began with is the
    tag of that argument's type, so [get_type] of the decoded argument
    agrees with the tag on the wire; and when the argument is an array, the
    byte after the tag is the element tag from which the registry's array
    entry allocates an array of that class.  Streams that run short during
    the decode are not covered: the model does not follow the program past
    a short read. *)
Theorem decoded_type_is_tag_read (b : byte) (rest s' : mock_stream)
    (a : argument) :
  serialize (b :: rest) = Ok (a, s') ->
  b = e_argument_type.to_byte (get_type a)
  /\ (is_array a = true ->
      exists sub rest',
        rest = sub :: rest'
        /\ array_constructor [sub] = Ok (Some (default_instance a), [])).
Proof.
  rewrite serialize_cons. unfold factory_lookup.
  destruct (e_argument_type.of_byte b) as [t|] eqn:Et; [|discriminate].
  apply of_byte_to_byte in Et. subst b. rewrite factory_find_cases.
  intros H.
  assert (Hplain : forall a0,
            is_array a0 = false ->
            (new_argument <- ret (Some a0) ;;
             match new_argument with
             | Some a1 => read (serialize_fuel (S (length rest))) a1
             | None => raise null_argument
             end) rest = Ok (a, s') ->
            get_type a = get_type a0 /\ is_array a = false).
  { intros a0 Ha0 H0. apply bind_ok in H0.
    destruct H0 as (p & s1 & Hc & H0).
    unfold ret in Hc. injection Hc as <- <-.
    apply read_keeps_class in H0.
    destruct a0; try discriminate Ha0;
      destruct a; try discriminate H0; split; reflexivity. }
  destruct t; try discriminate H;
    try (apply Hplain in H; [|reflexivity]; destruct H as [-> Hna];
         split; [reflexivity | intros Harr; congruence]).
  apply bind_ok in H. destruct H as (p & s1 & Hc & H).
  destruct p as [a0|]; [|discriminate H].
  destruct rest as [|sub rest']; [discriminate Hc|].
  apply array_constructor_class in Hc. destruct Hc as (Harr & Hd & Hc).
  apply read_keeps_class in H. rewrite Hd in H.
  split.
  - destruct a0; try discriminate Harr;
      destruct a; try discriminate H; reflexivity.
  - intros _. exists sub, rest'. split; [reflexivity|].
    rewrite H. exact Hc.
Qed.

Lemma decoded_type_is_tag_read_witness :
  e_argument_type.to_byte e_argument_type.array
  = e_argument_type.to_byte
      (get_type (array_int32 name_arr_arg [13; 14; 88]))
  /\ (is_array (array_int32 name_arr_arg [13; 14; 88]) = true ->
      exists sub rest',
        tl (write (array_int32 name_arr_arg [13; 14; 88]) []) = sub :: rest'
        /\ array_constructor [sub]
           = Ok (Some (default_instance
                         (array_int32 name_arr_arg [13; 14; 88])), [])).
Proof.
  apply (decoded_type_is_tag_read
           (e_argument_type.to_byte e_argument_type.array)
           (tl (write (array_int32 name_arr_arg [13; 14; 88]) [])) []).
  reflexivity.
Defined.

(** X11: an array whose element tag is none of int32, float64, string,
    uint64 and struct_value is not decoded: the registry's array entry
    returns [nullptr] and [serialize] stops at [assert(new_argument)].  So
    arrays of arrays and arrays of blobs cannot come off the wire. *)
Theorem array_of_unsupported_element (sub : byte) (rest : mock_stream) :
  existsb (fun t => Z_of_byte sub =? e_argument_type.ordinal t)
    [e_argument_type.int32; e_argument_type.float64; e_argument_type.string;
     e_argument_type.uint64; e_argument_type.struct_value] = false ->
  serialize (e_argument_type.to_byte e_argument_type.array :: sub :: rest)
  = Fault null_argument.
Proof.
  intros H. cbn [existsb] in H.
  repeat (apply orb_false_iff in H; destruct H as [? H]).
  rewrite serialize_cons.
  change (factory_lookup (e_argument_type.to_byte e_argument_type.array))
    with (Some array_constructor).
  unfold bind, array_constructor, bind.
  change (read_tag (sub :: rest)) with (@Ok (byte * mock_stream) (sub, rest)).
  cbv beta iota zeta.
  repeat match goal with
         | E : ?c = false |- context [if ?c then _ else _] => rewrite E
         end.
  reflexivity.
Qed.

Lemma array_of_unsupported_element_witness :
  serialize [e_argument_type.to_byte e_argument_type.array;
             e_argument_type.to_byte e_argument_type.array; x00; x00]
  = Fault null_argument
  /\ serialize [e_argument_type.to_byte e_argument_type.array;
                e_argument_type.to_byte e_argument_type.blob; x00; x00]
     = Fault null_argument.
Proof.
  split; apply array_of_unsupported_element; reflexivity.
Defined.

(** ** Reading into an instance that already holds something *)

Lemma reads_read_onto (rec : M argument) (a0 : argument) name payload a :
  short name = true ->
  reads (read_value rec
           (set_name (match name with
                      | [] => get_name a0
                      | _ :: _ => name
                      end) a0)) payload a ->
  reads (read rec a0) (stream.write_string name [] ++ payload) a.
Proof.
  intros Hs Hv. unfold read.
  eapply reads_bind; [apply reads_read_string, Hs | exact Hv].
Qed.

Lemma reads_counted_items_onto {A B} (item : M A)
    (w : A -> mock_stream -> mock_stream) (f : list A -> B) (val : list A) :
  in_size_t val = true ->
  (forall v, In v val -> forall s, w v s = s ++ w v []) ->
  (forall v, In v val -> reads item (w v []) v) ->
  reads (size <- read_size_t ;;
         vs <- read_items (Z.to_nat size) item ;;
         ret (f vs))
        (for_each w val (write_size_t (vsize val) []))
        (f val).
Proof.
  intros Hsize Happ Hitem.
  rewrite (for_each_app w val Happ).
  eapply reads_bind; [apply reads_read_size_t, Hsize|].
  unfold vsize. rewrite Nat2Z.id.
  apply (reads_bind_ret _ f). now apply reads_read_items.
Qed.

Lemma read_from_reads (a0 a : argument) bs rest :
  (forall rec,
      (forall v, (length (write v []) <= length bs)%nat ->
                 well_typed v = true -> transmissible v = true ->
                 reads rec (write v []) v) ->
      reads (read rec a0) bs a) ->
  read_from a0 (bs ++ rest) = Ok (a, rest).
Proof.
  intros H. unfold read_from. apply H.
  intros v Hlen Hwt Htr. apply reads_serialize_fuel; try assumption.
  rewrite length_app. lia.
Qed.

(** X12: [read] on a struct that already has children appends the children
    it decodes after them, in stream order, and does not touch the ones it
    had; the name is replaced by the one on the stream unless that one is
    empty, in which case the struct keeps its name. *)
Theorem read_appends_children (name0 name : std_string)
    (old values : list argument) (rest : mock_stream) :
  short name = true ->
  in_size_t values = true ->
  forallb (fun v => well_typed v && transmissible v) values = true ->
  read_from (argument_struct name0 old)
    ((stream.write_string name [] ++ write_values values []) ++ rest)
  = Ok (argument_struct (match name with [] => name0 | _ :: _ => name end)
          (old ++ values), rest).
Proof.
  intros Hname Hsize Hvs. apply read_from_reads. intros rec Hrec.
  apply reads_read_onto; [exact Hname|].
  cbn [get_name set_name read_value]. unfold read_values, write_values.
  set (n := match name with [] => name0 | _ :: _ => name end).
  apply (reads_bind_ret _ (argument_struct n)).
  apply (reads_counted_items_onto rec write (fun vs => old ++ vs));
    [exact Hsize | intros; apply write_app |].
  intros v Hv. pose proof (In_forallb _ _ _ Hvs Hv) as H. cbn beta in H.
  apply andb_true_iff in H. destruct H as [Hwt Htr].
  apply Hrec; [|exact Hwt | exact Htr].
  rewrite length_app. fold (write_values values []).
  rewrite write_values_flat, length_app.
  pose proof (length_flat_map_In (fun v => write v []) values v Hv). lia.
Qed.

Lemma read_appends_children_witness :
  read_from (argument_struct name_root [int32 name_a 1])
    ((stream.write_string [] [] ++ write_values [int32 name_b 2] []) ++ [])
  = Ok (argument_struct name_root [int32 name_a 1; int32 name_b 2], []).
Proof.
  apply (read_appends_children name_root [] [int32 name_a 1]
           [int32 name_b 2] []); reflexivity.
Defined.

(** X13: [read] on an array that already has elements appends the elements
    it decodes after them, for each of the four scalar element types. *)
Theorem read_appends_elements (name0 name : std_string) (rest : mock_stream) :
  short name = true ->
  let n := match name with [] => name0 | _ :: _ => name end in
  (forall old val,
      in_size_t val = true -> forallb in_int32 val = true ->
      read_from (array_int32 name0 old)
        ((stream.write_string name []
            ++ write_value (array_int32 name val) []) ++ rest)
      = Ok (array_int32 n (old ++ val), rest))
  /\ (forall old val,
        in_size_t val = true -> forallb in_uint64 val = true ->
        read_from (array_uint64 name0 old)
          ((stream.write_string name []
              ++ write_value (array_uint64 name val) []) ++ rest)
        = Ok (array_uint64 n (old ++ val), rest))
  /\ (forall old val,
        in_size_t val = true -> forallb in_uint64 val = true ->
        read_from (array_float64 name0 old)
          ((stream.write_string name []
              ++ write_value (array_float64 name val) []) ++ rest)
        = Ok (array_float64 n (old ++ val), rest))
  /\ (forall old val,
        in_size_t val = true -> forallb short val = true ->
        read_from (array_string name0 old)
          ((stream.write_string name []
              ++ write_value (array_string name val) []) ++ rest)
        = Ok (array_string n (old ++ val), rest)).
Proof.
  intros Hname n. repeat split; intros old val Hsize Hval;
    apply read_from_reads; intros rec _;
    (apply reads_read_onto; [exact Hname|]);
    cbn [get_name set_name read_value write_value]; fold n.
  - apply (reads_counted_items_onto _
             (fun v => stream.write_trivial 4 (int32_bits v))
             (fun vs => array_int32 n (old ++ vs)));
      [exact Hsize | reflexivity |].
    intros v Hv. apply reads_int32_item. eapply In_forallb; eassumption.
  - apply (reads_counted_items_onto _ (fun v => stream.write_trivial 8 v)
             (fun vs => array_uint64 n (old ++ vs)));
      [exact Hsize | reflexivity |].
    intros v Hv. apply reads_uint64_item. eapply In_forallb; eassumption.
  - apply (reads_counted_items_onto _ (fun v => stream.write_trivial 8 v)
             (fun vs => array_float64 n (old ++ vs)));
      [exact Hsize | reflexivity |].
    intros v Hv. apply reads_uint64_item. eapply In_forallb; eassumption.
  - apply (reads_counted_items_onto _ stream.write_string
             (fun vs => array_string n (old ++ vs)));
      [exact Hsize | intros; apply write_string_app |].
    intros v Hv. apply reads_read_new_string. eapply In_forallb; eassumption.
Qed.

Lemma read_appends_elements_witness :
  read_from (array_int32 name_arr_arg [13])
    ((stream.write_string [] [] ++ write_value (array_int32 [] [14; 88]) [])
       ++ [])
  = Ok (array_int32 name_arr_arg [13; 14; 88], []).
Proof.
  apply (proj1 (read_appends_elements name_arr_arg [] [] eq_refl)
           [13] [14; 88]); reflexivity.
Defined.

(** X14: [read] on a string argument replaces the name and the payload by
    what is on the stream, except that an empty name or an empty payload on
    the stream leaves the instance's own name or payload in place. *)
Theorem read_keeps_string_on_empty (name0 val0 name val : std_string)
    (rest : mock_stream) :
  short name = true ->
  short val = true ->
  read_from (string name0 val0)
    ((stream.write_string name [] ++ stream.write_string val []) ++ rest)
  = Ok (string (match name with [] => name0 | _ :: _ => name end)
               (match val with [] => val0 | _ :: _ => val end), rest).
Proof.
  intros Hname Hval. apply read_from_reads. intros rec _.
  apply reads_read_onto; [exact Hname|].
  cbn [get_name set_name read_value].
  apply (reads_bind_ret (stream.read_string val0) (string _)).
  now apply reads_read_string.
Qed.

Lemma read_keeps_string_on_empty_witness :
  read_from (string name_x string_hi)
    ((stream.write_string [] [] ++ stream.write_string [] []) ++ [])
  = Ok (string name_x string_hi, []).
Proof.
  apply (read_keeps_string_on_empty name_x string_hi [] [] []); reflexivity.
Defined.

(** ** release(name) when the name is unique, and when it is not *)

Lemma kept_none_match (name : std_string) (l : list argument) :
  (forall c, In c l -> get_name c <> name) -> kept (has_name name) l = l.
Proof.
  intros H. unfold kept. induction l as [|c l IH]; [reflexivity|].
  cbn [filter]. unfold has_name at 1.
  rewrite string_eqb_neq by (apply H; now left). cbn [negb].
  f_equal. apply IH. intros c' Hc'. apply H. now right.
Qed.

Lemma kept_all_match (name : std_string) (l : list argument) :
  (forall c, In c l -> get_name c = name) -> kept (has_name name) l = [].
Proof.
  intros H. unfold kept. induction l as [|c l IH]; [reflexivity|].
  cbn [filter]. unfold has_name at 1.
  rewrite (proj2 (string_eqb_eq _ _) (H c (or_introl eq_refl))).
  cbn [negb]. apply IH. intros c' Hc'. apply H. now right.
Qed.

Lemma kept_app (name : std_string) (l1 l2 : list argument) :
  kept (has_name name) (l1 ++ l2) = kept (has_name name) l1 ++ kept (has_name name) l2.
Proof. apply filter_app. Qed.

Lemma last_default {A} (l : list A) (x c d : A) :
  last (x :: l) c = last (x :: l) d.
Proof.
  revert x. induction l as [|y l IH]; intros x; [reflexivity|].
  change (last (y :: l) c = last (y :: l) d). apply IH.
Qed.

Lemma nth_error_last {A} (c : A) (post : list A) :
  nth_error (c :: post) (length post) = Some (last post c).
Proof.
  revert c. induction post as [|d post IH]; intros c; [reflexivity|].
  cbn [length nth_error]. rewrite IH. f_equal.
  destruct post as [|e post]; [reflexivity|].
  change (last (e :: post) d = last (e :: post) c). apply last_default.
Qed.

Lemma release_unfold (name : std_string) (values : list argument) :
  release name values =
  if (length (kept (has_name name) values) =? length values)%nat then (None, values)
  else (nth_error values (length (kept (has_name name) values)),
        kept (has_name name) values
          ++ skipn (S (length (kept (has_name name) values))) values).
Proof. exact (release_spec name values). Qed.

Lemma release_unique (name : std_string) (pre post : list argument) (c : argument) :
  (forall c', In c' pre -> get_name c' <> name) ->
  get_name c = name ->
  (forall c', In c' post -> get_name c' <> name) ->
  release name (pre ++ c :: post) = (Some (last post c), pre ++ post).
Proof.
  intros Hpre Hc Hpost. rewrite release_unfold.
  assert (Hk : kept (has_name name) (pre ++ c :: post) = pre ++ post).
  { rewrite kept_app. change (c :: post) with ([c] ++ post).
    rewrite kept_app, (kept_none_match name pre Hpre),
      (kept_none_match name post Hpost).
    rewrite (kept_all_match name [c]); [reflexivity|].
    intros c' [<-|[]]. exact Hc. }
  rewrite Hk, !length_app. cbn [length].
  destruct (Nat.eqb_spec (length pre + length post)
              (length pre + S (length post))) as [E|_]; [lia|].
  f_equal.
  - rewrite nth_error_app2 by lia.
    replace (length pre + length post - length pre)%nat
      with (length post) by lia.
    apply nth_error_last.
  - rewrite skipn_all2; [now rewrite app_nil_r|].
    rewrite length_app. cbn [length]. lia.
Qed.

(** X15: when exactly one child has the name, [release(name)] leaves the
    struct with exactly the other children, in order, but the pointer it
    returns is the struct's last child: the released child itself only when
    it was the last one, and otherwise a child that is still in the
    struct. *)
Theorem release_unique_name (name : std_string) (pre post : list argument) (c : argument) :
  (forall c', In c' pre -> get_name c' <> name) ->
  get_name c = name ->
  (forall c', In c' post -> get_name c' <> name) ->
  release name (pre ++ c :: post) = (Some (last post c), pre ++ post).
Proof. apply release_unique. Qed.

Lemma release_unique_name_witness :
  release name_a ([] ++ int32 name_a 1 :: [int32 name_b 2; int32 name_x 3])
  = (Some (last [int32 name_b 2; int32 name_x 3] (int32 name_a 1)),
     [] ++ [int32 name_b 2; int32 name_x 3]).
Proof.
  apply release_unique_name.
  - intros c' [].
  - reflexivity.
  - intros c' [<-|[<-|[]]]; discriminate.
Defined.

(** X16: [release(name)] does what its caller expects exactly when no child
    of another name stands behind the first child of that name: it then
    returns that first child and leaves all the others in order. *)
Theorem release_when_match_is_last (name : std_string) (pre post : list argument) (c : argument) :
  (forall c', In c' pre -> get_name c' <> name) ->
  get_name c = name ->
  (forall c', In c' post -> get_name c' = name) ->
  release name (pre ++ c :: post) = (Some c, pre ++ post).
Proof.
  intros Hpre Hc Hpost. rewrite release_unfold.
  assert (Hk : kept (has_name name) (pre ++ c :: post) = pre).
  { rewrite kept_app, (kept_none_match name pre Hpre).
    rewrite (kept_all_match name (c :: post)); [now rewrite app_nil_r|].
    intros c' [<-|Hc']; [exact Hc | now apply Hpost]. }
  rewrite Hk, length_app. cbn [length].
  destruct (Nat.eqb_spec (length pre) (length pre + S (length post)))
    as [E|_]; [lia|].
  f_equal.
  - rewrite nth_error_app2 by lia. now rewrite Nat.sub_diag.
  - f_equal.
    change (S (length pre)) with (1 + length pre)%nat.
    rewrite <- skipn_skipn.
    rewrite skipn_app, Nat.sub_diag, skipn_all. reflexivity.
Qed.

Lemma release_when_match_is_last_witness :
  release name_b ([int32 name_a 1] ++ int32 name_b 2 :: [])
  = (Some (int32 name_b 2), [int32 name_a 1] ++ []).
Proof.
  apply release_when_match_is_last.
  - intros c' [<-|[]]; discriminate.
  - reflexivity.
  - intros c' [].
Defined.

Lemma field_scan_some (name : std_string) (values : list argument) (c : argument) :
  field_scan name values = Some c -> In c values /\ has_name name c = true.
Proof.
  induction values as [|d values IH]; [discriminate|].
  cbn [field_scan]. destruct (string_eqb (get_name d) name) eqn:E.
  - intros H. injection H as <-. split; [now left | exact E].
  - intros H. destruct (IH H) as [Hin Hm]. split; [now right | exact Hm].
Qed.

Lemma kept_shorter (name : std_string) (values : list argument) (c : argument) :
  In c values -> has_name name c = true ->
  (length (kept (has_name name) values) < length values)%nat.
Proof.
  unfold kept. induction values as [|d values IH]; intros Hin Hm;
    [destruct Hin|].
  destruct Hin as [<-|Hin].
  - cbn [filter]. rewrite Hm. cbn [negb length].
    pose proof (filter_length_le (fun x => negb (has_name name x)) values).
    lia.
  - cbn [filter]. specialize (IH Hin Hm).
    destruct (negb (has_name name d)); cbn [length]; lia.
Qed.

(** X17: whenever some child has the name, [release(name)] returns a child
    of the struct (never [nullptr]) and leaves the struct with exactly one
    child fewer, whatever the number of children of that name. *)
Theorem release_takes_one_slot (name : std_string) (values : list argument) (c : argument) :
  field_scan name values = Some c ->
  exists r,
    fst (release name values) = Some r
    /\ In r values
    /\ S (length (snd (release name values))) = length values.
Proof.
  intros H. apply field_scan_some in H. destruct H as [Hin Hm].
  pose proof (kept_shorter name values c Hin Hm) as Hlt.
  rewrite release_unfold.
  destruct (Nat.eqb_spec (length (kept (has_name name) values)) (length values))
    as [E|_]; [lia|].
  cbn [fst snd].
  destruct (nth_error values (length (kept (has_name name) values))) as [r|] eqn:Er;
    [|apply nth_error_None in Er; lia].
  exists r. split; [reflexivity|]. split; [eapply nth_error_In, Er|].
  rewrite length_app, length_skipn. lia.
Qed.

Lemma release_takes_one_slot_witness :
  exists r,
    fst (release name_a [int32 name_a 1; int32 name_a 2; int32 name_b 3])
    = Some r
    /\ In r [int32 name_a 1; int32 name_a 2; int32 name_b 3]
    /\ S (length (snd (release name_a
                         [int32 name_a 1; int32 name_a 2; int32 name_b 3])))
       = length [int32 name_a 1; int32 name_a 2; int32 name_b 3].
Proof.
  apply (release_takes_one_slot name_a _ (int32 name_a 1)). reflexivity.
Defined.

Lemma field_scan_skip (other : std_string) (pre post : list argument)
    (c : argument) :
  get_name c <> other ->
  field_scan other (pre ++ c :: post) = field_scan other (pre ++ post).
Proof.
  intros Hc. induction pre as [|p pre IH]; cbn [app field_scan].
  - now rewrite string_eqb_neq.
  - now rewrite IH.
Qed.

(** X18: after [release(name)] of a name exactly one child has, a lookup of
    that name finds nothing (it ends as every lookup of a missing name
    does), and a lookup of any other name gives what it gave before. *)
Theorem lookups_after_release (name : std_string) (pre post : list argument)
    (c : argument) :
  (forall c', In c' pre -> get_name c' <> name) ->
  get_name c = name ->
  (forall c', In c' post -> get_name c' <> name) ->
  (forall T,
      field T name (snd (release name (pre ++ c :: post)))
      = Fault null_dereference)
  /\ (forall T other,
        other <> name ->
        field T other (snd (release name (pre ++ c :: post)))
        = field T other (pre ++ c :: post)).
Proof.
  intros Hpre Hc Hpost.
  rewrite (release_unique name pre post c Hpre Hc Hpost). cbn [snd].
  split.
  - intros T. unfold field. rewrite field_scan_none; [reflexivity|].
    intros c' Hc'. apply in_app_or in Hc'.
    destruct Hc' as [Hc'|Hc']; [now apply Hpre | now apply Hpost].
  - intros T other Hne. unfold field.
    rewrite (field_scan_skip other pre post c); [reflexivity|].
    congruence.
Qed.

Lemma lookups_after_release_witness :
  field int32_t name_a
    (snd (release name_a ([] ++ int32 name_a 1 :: [int32 name_b 2])))
  = Fault null_dereference
  /\ field int32_t name_b
       (snd (release name_a ([] ++ int32 name_a 1 :: [int32 name_b 2])))
     = field int32_t name_b ([] ++ int32 name_a 1 :: [int32 name_b 2]).
Proof.
  assert (H := lookups_after_release name_a [] [int32 name_b 2]
                 (int32 name_a 1)).
  split.
  - apply H; [intros c' [] | reflexivity |].
    intros c' [<-|[]]; discriminate.
  - apply H; [intros c' [] | reflexivity | | discriminate].
    intros c' [<-|[]]; discriminate.
Defined.

(** ** release(child): removal by identity *)

Lemma kept_eqb_absent (p : pointer) (l : list pointer) :
  ~ In p l -> kept (fun x => Nat.eqb x p) l = l.
Proof.
  intros H. unfold kept. induction l as [|x l IH]; [reflexivity|].
  cbn [filter]. destruct (Nat.eqb_spec x p) as [E|_].
  - exfalso. apply H. now left.
  - cbn [negb]. rewrite IH; [reflexivity|].
    intros Hin. apply H. now right.
Qed.

Lemma kept_middle {A} (q : A -> bool) (pre post : list A) (x : A) :
  kept q pre = pre -> q x = true -> kept q post = post ->
  kept q (pre ++ x :: post) = pre ++ post.
Proof.
  unfold kept. intros E1 Hx E2. rewrite filter_app. cbn [filter].
  rewrite Hx. cbn [negb]. now rewrite E1, E2.
Qed.

(** X19: [release(child)] takes the child with that address out of the
    struct and leaves every other child in place and in order, provided the
    address is among the children, once.  When it is not among them the
    call erases at [end()], which has no defined behaviour. *)
Theorem release_pointer_removes_it :
  (forall p pre post,
      ~ In p pre -> ~ In p post ->
      release_pointer p (pre ++ p :: post) = Some (pre ++ post))
  /\ (forall p values, ~ In p values -> release_pointer p values = None).
Proof.
  split.
  - intros p pre post Hpre Hpost. unfold release_pointer, std_remove.
    rewrite remove_if_spec.
    assert (Hk : kept (fun x => Nat.eqb x p) (pre ++ p :: post) = pre ++ post).
    { apply kept_middle;
        [now apply kept_eqb_absent | apply Nat.eqb_refl
        | now apply kept_eqb_absent]. }
    rewrite Hk. rewrite !length_app, length_skipn, !length_app.
    cbn [length].
    destruct (Nat.eqb_spec (length pre + length post)
                (length pre + length post
                 + (length pre + S (length post)
                    - (length pre + length post)))) as [E|_]; [lia|].
    unfold erase. rewrite firstn_app, length_app, Nat.sub_diag.
    rewrite firstn_all2 by (rewrite length_app; lia).
    cbn [firstn]. rewrite app_nil_r.
    rewrite skipn_all2; [now rewrite app_nil_r|].
    rewrite !length_app, length_skipn, length_app. cbn [length]. lia.
  - intros p values H. unfold release_pointer, std_remove.
    rewrite remove_if_spec, (kept_eqb_absent p values H).
    rewrite skipn_all, app_nil_r. now rewrite Nat.eqb_refl.
Qed.

Lemma release_pointer_removes_it_witness :
  release_pointer 7%nat ([3%nat] ++ 7%nat :: [9%nat]) = Some ([3%nat] ++ [9%nat])
  /\ release_pointer 7%nat [3%nat; 9%nat] = None.
Proof.
  split.
  - apply (proj1 release_pointer_removes_it).
    + intros [E|[]]; discriminate E.
    + intros [E|[]]; discriminate E.
  - apply (proj2 release_pointer_removes_it).
    intros [E|[E|[]]]; discriminate E.
Defined.

(** ** The builder, call by call *)

Lemma builder_add_sequence (ps : list (option argument)) :
  forall b,
    struct_builder.values
      (fold_left (fun b' p => struct_builder.add p b') ps b)
    = struct_builder.values b ++ non_null ps.
Proof.
  unfold non_null.
  induction ps as [|p ps IH]; intros b; cbn [fold_left flat_map].
  - now rewrite app_nil_r.
  - rewrite IH. destruct p as [a|]; cbn [struct_builder.add app].
    + cbn [struct_builder.values]. now rewrite <- app_assoc.
    + reflexivity.
Qed.

(** X20: a builder that was created and then given pointers through
    [add], some of them null, builds the struct of the pointers that were
    not null, in the order of the calls; and its destructor's assertion
    holds without a call of [get] only if every pointer it was given was
    null. *)
Theorem builder_collects_non_null (ps : list (option argument))
    (name : std_string) :
  fst (struct_builder.get name
         (fold_left (fun b p => struct_builder.add p b) ps
            struct_builder.create))
  = argument_struct name (non_null ps)
  /\ (struct_builder.destroy
        (fold_left (fun b p => struct_builder.add p b) ps
           struct_builder.create) = Ok tt
      <-> non_null ps = []).
Proof.
  pose proof (builder_add_sequence ps struct_builder.create) as H.
  cbn [struct_builder.create struct_builder.values app] in H.
  split.
  - unfold struct_builder.get, struct_builder.move_vector. cbn [fst].
    now rewrite H.
  - unfold struct_builder.destroy. rewrite H.
    destruct (non_null ps); split; intros E; try reflexivity; discriminate E.
Qed.

Lemma builder_collects_non_null_witness :
  fst (struct_builder.get name_root
         (fold_left (fun b p => struct_builder.add p b)
            [Some (int32 name_a 1); None; Some (int32 name_b 2)]
            struct_builder.create))
  = argument_struct name_root [int32 name_a 1; int32 name_b 2].
Proof.
  exact (proj1 (builder_collects_non_null
                  [Some (int32 name_a 1); None; Some (int32 name_b 2)]
                  name_root)).
Defined.

(** ** Reading over a scalar or a blob *)

(** X21: [read] on an int32, uint64, float64 or blob instance that already
    holds a payload replaces the payload by the one on the stream; nothing
    of the old payload is left, unlike for arrays and structs. *)
Theorem read_overwrites_payload (name0 name : std_string)
    (rest : mock_stream) :
  short name = true ->
  let n := match name with [] => name0 | _ :: _ => name end in
  (forall old val,
      in_int32 val = true ->
      read_from (int32 name0 old)
        ((stream.write_string name [] ++ write_value (int32 name val) [])
           ++ rest)
      = Ok (int32 n val, rest))
  /\ (forall old val,
        in_uint64 val = true ->
        read_from (uint64 name0 old)
          ((stream.write_string name [] ++ write_value (uint64 name val) [])
             ++ rest)
        = Ok (uint64 n val, rest))
  /\ (forall old val,
        in_uint64 val = true ->
        read_from (float64 name0 old)
          ((stream.write_string name [] ++ write_value (float64 name val) [])
             ++ rest)
        = Ok (float64 n val, rest))
  /\ (forall old m_blob,
        (vsize m_blob <? 2 ^ 32) = true ->
        read_from (argument_blob name0 old)
          ((stream.write_string name []
              ++ write_value (argument_blob name m_blob) []) ++ rest)
        = Ok (argument_blob n m_blob, rest)).
Proof.
  intros Hname n. repeat split; intros old val Hval;
    apply read_from_reads; intros rec _;
    (apply reads_read_onto; [exact Hname|]);
    cbn [get_name set_name read_value write_value]; fold n.
  - eapply reads_eq;
      [ apply (reads_bind_ret (stream.read_trivial 4)
                 (fun v => int32 n (int32_of_bits v))),
          (reads_read_trivial 4 (int32_bits val)), int32_bits_range
      | reflexivity
      | now rewrite int32_of_bits_bits ].
  - apply (reads_bind_ret (stream.read_trivial 8) (uint64 n)).
    now apply reads_uint64_item.
  - apply (reads_bind_ret (stream.read_trivial 8) (float64 n)).
    now apply reads_uint64_item.
  - apply Z.ltb_lt in Hval.
    unfold stream.write_trivial, stream.write. cbn [app].
    assert (Hc : uint32_cast (vsize val) = vsize val)
      by (unfold uint32_cast, vsize in *; apply Z.mod_small; lia).
    rewrite Hc. eapply reads_bind.
    + apply reads_read_trivial. unfold vsize in *.
      change (256 ^ Z.of_nat 4) with (2 ^ 32). lia.
    + unfold vsize. rewrite Nat2Z.id.
      apply (reads_bind_ret _ (argument_blob n)), reads_stream_read.
Qed.

Lemma read_overwrites_payload_witness :
  read_from (int32 name_a 7)
    ((stream.write_string [] [] ++ write_value (int32 [] 555) []) ++ [])
  = Ok (int32 name_a 555, []).
Proof.
  apply (proj1 (read_overwrites_payload name_a [] [] eq_refl) 7 555).
  reflexivity.
Defined.

(** The bound [read_from] passes on is enough on every stream. *)
Lemma read_from_fuel_enough (a : argument) (s : mock_stream) :
  read_from a s <> Fault out_of_fuel.
Proof.
  unfold read_from.
  apply (bounded_read (length s) _ a (bounded_serialize_fuel (length s)) s).
  lia.
Qed.

(** ** Arrays of scalars on the wire *)

(** X22: the bytes [write] produces for an array of int32, uint64, float64
    or string elements: the array tag, the tag of the element type, the
    length-prefixed name, the number of elements as an 8-byte [std::size_t],
    then the elements in order, each as its bare payload (4 or 8 bytes, or
    a length-prefixed string) with no tag of its own. *)
Theorem scalar_array_wire_layout (name : std_string) (s : mock_stream) :
  (forall val,
      write (array_int32 name val) s =
      s ++ e_argument_type.to_byte e_argument_type.array
           :: e_argument_type.to_byte e_argument_type.int32
           :: stream.write_string name []
              ++ stream.write_trivial 8 (vsize val mod 2 ^ 64) []
              ++ flat_map (fun v => le_bytes 4 (int32_bits v)) val)
  /\ (forall val,
        write (array_uint64 name val) s =
        s ++ e_argument_type.to_byte e_argument_type.array
             :: e_argument_type.to_byte e_argument_type.uint64
             :: stream.write_string name []
                ++ stream.write_trivial 8 (vsize val mod 2 ^ 64) []
                ++ flat_map (fun v => le_bytes 8 v) val)
  /\ (forall val,
        write (array_float64 name val) s =
        s ++ e_argument_type.to_byte e_argument_type.array
             :: e_argument_type.to_byte e_argument_type.float64
             :: stream.write_string name []
                ++ stream.write_trivial 8 (vsize val mod 2 ^ 64) []
                ++ flat_map (fun v => le_bytes 8 v) val)
  /\ (forall val,
        write (array_string name val) s =
        s ++ e_argument_type.to_byte e_argument_type.array
             :: e_argument_type.to_byte e_argument_type.string
             :: stream.write_string name []
                ++ stream.write_trivial 8 (vsize val mod 2 ^ 64) []
                ++ flat_map (fun v => stream.write_string v []) val).
Proof.
  repeat split; intros val.
  - rewrite (write_array_layout _ e_argument_type.int32 s) by reflexivity.
    cbn [get_name write_value].
    now rewrite (scalar_array_payload
                   (fun v => stream.write_trivial 4 (int32_bits v))).
  - rewrite (write_array_layout _ e_argument_type.uint64 s) by reflexivity.
    cbn [get_name write_value].
    now rewrite (scalar_array_payload (fun v => stream.write_trivial 8 v)).
  - rewrite (write_array_layout _ e_argument_type.float64 s) by reflexivity.
    cbn [get_name write_value].
    now rewrite (scalar_array_payload (fun v => stream.write_trivial 8 v)).
  - rewrite (write_array_layout _ e_argument_type.string s) by reflexivity.
    cbn [get_name write_value].
    rewrite (scalar_array_payload stream.write_string)
      by (intros; apply write_string_app).
    reflexivity.
Qed.

